(** * Logic_Tools: the circuit generator of [logic_gen_tool.py]

    A shallow embedding of the [LogicGate] and [Circuit] classes and of the
    builders [create_decoder], [square_func] and [create_lut], followed by the
    properties of the specification that were checked against them.

    Python integers are [Z]; slot indices (positions in [logic_gates], the
    values of [id_counter]) are [nat]; bit strings are [list ascii]; the
    dictionary of dictionaries [index_lut] is a [gmap] of [gmap]s.  Methods of
    [Circuit] run in a state-and-exception monad over the circuit, because the
    source mutates [self] and raises. *)

From Stdlib Require Import ZArith Zpow_facts Ascii String.
From stdpp Require Import base numbers option list gmap.

Open Scope Z_scope.

(** ** Exceptions and the method monad *)

Inductive exn : Type :=
  | ArityMismatch      (* Exception("Unmatched amount of inputs and outputs!") *)
  | ZeroDivisionError
  | IndexError
  | KeyError
  | TypeError.

Inductive result (A : Type) : Type :=
  | Ok (a : A)
  | Raise (e : exn).
Arguments Ok {A} a.
Arguments Raise {A} e.

(** ** class LogicGate *)

Definition lower_char (c : ascii) : ascii :=
  let n := nat_of_ascii c in
  if ((65 <=? n)%nat && (n <=? 90)%nat)%bool then ascii_of_nat (n + 32) else c.

Fixpoint lower (s : string) : string :=
  match s with
  | EmptyString => EmptyString
  | String c s' => String (lower_char c) (lower s')
  end.

(** [{"and": 0, "or": 1, "xor": 2, "nand": 3, "nor": 4, "xnor": 5}.get(mode.lower(), 0)] *)
Definition mode_code (mode : string) : Z :=
  let m := lower mode in
  if String.eqb m "and" then 0
  else if String.eqb m "or" then 1
  else if String.eqb m "xor" then 2
  else if String.eqb m "nand" then 3
  else if String.eqb m "nor" then 4
  else if String.eqb m "xnor" then 5
  else 0.

Record LogicGate : Type := mkLogicGate {
  position : Z * Z * Z;
  mode : Z;
  color : string;
  connections : list nat
}.

(** [LogicGate.__init__] *)
Definition LogicGate_init (position : Z * Z * Z) (mode color : string) : LogicGate :=
  {| position := position; mode := mode_code mode; color := color; connections := [] |}.

(** [LogicGate.connect_to]: [self.connections.append(id_)] *)
Definition connect_to (g : LogicGate) (id_ : nat) : LogicGate :=
  {| position := position g; mode := mode g; color := color g;
     connections := connections g ++ [id_] |}.

(** ** class Circuit *)

(** [logic_gates] holds the gates themselves, where the source holds
    references to [LogicGate] objects that [connect_to] mutates in place.
    The two agree as long as no object sits in two slots, which is so for
    every circuit whose gates are constructed at the [add_logic] call, as in
    [create_decoder] and [create_lut].  In a circuit where the slot the index
    holds for a coordinate is a gate at that coordinate, two slots found
    through the index hold different objects (an object has one position),
    and [wire_gates] only touches gates it finds through the index; so what
    it does to the gate found at a coordinate is the same here and in the
    source, also when an object has been added twice.  The properties of
    [wire_gates] on arbitrary circuits are stated about those gates. *)
Record Circuit : Type := mkCircuit {
  logic_gates : list LogicGate;
  index_lut : gmap Z (gmap Z (gmap Z nat));
  id_counter : nat
}.

(** [Circuit.__init__] *)
Definition Circuit_init : Circuit :=
  {| logic_gates := []; index_lut := ∅; id_counter := 0 |}.

Definition M (A : Type) : Type := Circuit → result A * Circuit.

Definition ret {A} (a : A) : M A := λ c, (Ok a, c).
Definition raise {A} (e : exn) : M A := λ c, (Raise e, c).
Definition bind {A B} (m : M A) (k : A → M B) : M B :=
  λ c, match m c with
       | (Ok a, c') => k a c'
       | (Raise e, c') => (Raise e, c')
       end.
Definition get_self : M Circuit := λ c, (Ok c, c).
Definition set_index_lut (lut : gmap Z (gmap Z (gmap Z nat))) : M unit :=
  λ c, (Ok tt, {| logic_gates := logic_gates c; index_lut := lut; id_counter := id_counter c |}).
Definition set_logic_gates (gs : list LogicGate) : M unit :=
  λ c, (Ok tt, {| logic_gates := gs; index_lut := index_lut c; id_counter := id_counter c |}).
Definition set_id_counter (n : nat) : M unit :=
  λ c, (Ok tt, {| logic_gates := logic_gates c; index_lut := index_lut c; id_counter := n |}).

Declare Scope py_scope.
Delimit Scope py_scope with py.
Notation "x <- m ;; k" := (bind m (λ x, k))
  (at level 100, m at next level, right associativity) : py_scope.
Notation "m ;;; k" := (bind m (λ _, k))
  (at level 100, right associativity) : py_scope.
Open Scope py_scope.

(** [d[k]] on a dictionary: [KeyError] when the key is missing. *)
Definition getitem {K V} `{Countable K} (d : gmap K V) (k : K) : M V :=
  match d !! k with
  | Some v => ret v
  | None => raise KeyError
  end.

(** [for x in l: body], with the local variables the body updates threaded as [s]. *)
Fixpoint for_loop {A S} (l : list A) (body : A → S → M S) (s : S) : M S :=
  match l with
  | [] => ret s
  | x :: l' => s' <- body x s ;; for_loop l' body s'
  end.

(** [range(start, stop, step)] for [step ≠ 0]. *)
Definition py_range (start stop step : Z) : list Z :=
  let len := if 0 <? step then (stop - start + step - 1) `div` step
             else (start - stop - step - 1) `div` (- step) in
  (λ i : nat, start + Z.of_nat i * step) <$> seq 0 (Z.to_nat len).

(** [Circuit.is_solid] *)
Definition is_solid (position : Z * Z * Z) : M bool :=
  let '(px, py, pz) := position in
  self <- get_self ;;
  match index_lut self !! px with
  | None => ret false
  | Some _ =>
    lx <- getitem (index_lut self) px ;;
    match lx !! py with
    | None => ret false
    | Some _ =>
      ly <- getitem lx py ;;
      match ly !! pz with
      | None => ret false
      | Some _ => ret true
      end
    end
  end.

(** [Circuit.get_block]: [self.index_lut.get(px, {}).get(py, {}).get(pz)];
    [dict.get] with a default builds a fresh empty dictionary and stores
    nothing. *)
Definition get_block (position : Z * Z * Z) : M (option nat) :=
  let '(px, py, pz) := position in
  self <- get_self ;;
  ret (default ∅ (default ∅ (index_lut self !! px) !! py) !! pz).

(** [Circuit.generate_lut] *)
Definition generate_lut (position : Z * Z * Z) : M unit :=
  let '(px, py, pz) := position in
  self <- get_self ;;
  (match index_lut self !! px with
   | None => set_index_lut (<[px := ∅]> (index_lut self))
   | Some _ => ret tt
   end) ;;;
  self <- get_self ;;
  lx <- getitem (index_lut self) px ;;
  (match lx !! py with
   | None => set_index_lut (<[px := <[py := ∅]> lx]> (index_lut self))
   | Some _ => ret tt
   end) ;;;
  self <- get_self ;;
  lx <- getitem (index_lut self) px ;;
  ly <- getitem lx py ;;
  (match ly !! pz with
   | None => set_index_lut (<[px := <[py := <[pz := id_counter self]> ly]> lx]> (index_lut self))
   | Some _ => ret tt
   end) ;;;
  self <- get_self ;;
  set_id_counter (id_counter self + 1)%nat.

(** [Circuit.add_logic] *)
Definition add_logic (logic_gate : LogicGate) : M unit :=
  self <- get_self ;;
  set_logic_gates (logic_gates self ++ [logic_gate]) ;;;
  generate_lut (position logic_gate).

(** [l[index]] on a list, for an index produced by [range(len(l))]. *)
Definition list_item {A} (l : list A) (index : Z) : M A :=
  match l !! Z.to_nat index with
  | Some x => ret x
  | None => raise IndexError
  end.

(** [self.logic_gates[self.get_block(src)].connect_to(self.get_block(dst))].
    Every call site is guarded by [is_solid] on both coordinates, so neither
    lookup is [None] there (lemma [is_solid_get_block]); the subscript is
    evaluated before the argument. *)
Definition connect (src dst : Z * Z * Z) : M unit :=
  s <- get_block src ;;
  match s with
  | None => raise TypeError
  | Some s =>
    self <- get_self ;;
    match logic_gates self !! s with
    | None => raise IndexError
    | Some g =>
      d <- get_block dst ;;
      match d with
      | None => raise TypeError
      | Some d => set_logic_gates (<[s := connect_to g d]> (logic_gates self))
      end
    end
  end.

Definition len {A} (l : list A) : Z := Z.of_nat (length l).

(** [Circuit.wire_gates] *)
Definition wire_gates (input_pos output_pos : list (Z * Z * Z)) : M unit :=
  if len input_pos =? len output_pos then
    for_loop (py_range 0 (len input_pos) 1) (λ index _,
      i <- list_item input_pos index ;;
      a <- is_solid i ;;
      (* [and] evaluates its right operand only when the left one is true *)
      b <- (if a then o <- list_item output_pos index ;; is_solid o else ret false) ;;
      if negb b then ret tt
      else
        i <- list_item input_pos index ;;
        o <- list_item output_pos index ;;
        connect i o) tt
  else if len input_pos =? 1 then
    i0 <- list_item input_pos 0 ;;
    a <- is_solid i0 ;;
    if negb a then ret tt
    else
      for_loop (py_range 0 (len output_pos) 1) (λ index _,
        o <- list_item output_pos index ;;
        b <- is_solid o ;;
        if negb b then ret tt
        else
          i0 <- list_item input_pos 0 ;;
          o <- list_item output_pos index ;;
          connect i0 o) tt
  else if len output_pos =? 1 then
    o0 <- list_item output_pos 0 ;;
    a <- is_solid o0 ;;
    if negb a then ret tt
    else
      for_loop (py_range 0 (len input_pos) 1) (λ index _,
        i <- list_item input_pos index ;;
        b <- is_solid i ;;
        if negb b then ret tt
        else
          i <- list_item input_pos index ;;
          o0 <- list_item output_pos 0 ;;
          connect i o0) tt
  else raise ArityMismatch.

(** [Circuit.to_blueprint]: the list [childs] of per-gate records; the source
    then hands [{"bodies": [{"childs": childs}], "version": 3}] to
    [json.dumps]. *)
Record Controller : Type := mkController {
  active : bool;
  controllers : list nat;      (* [{"id": id_} for id_ in logic.connections] *)
  id : nat;
  (* "joints": None *)
  controller_mode : Z
}.

Record Child : Type := mkChild {
  child_color : string;
  controller : Controller;
  pos : Z * Z * Z;
  shapeId : string;
  xaxis : Z;
  zaxis : Z
}.

Definition to_blueprint (self : Circuit) : list Child :=
  imap (λ index logic,
    {| child_color := color logic;
       controller := {| active := false; controllers := connections logic;
                        id := index; controller_mode := mode logic |};
       pos := position logic;
       shapeId := "9f0f56e8-2c31-4d83-996c-d00a9b296c3f"; xaxis := 1; zaxis := -2 |})
    (logic_gates self).

(** ** Integers, strings and arithmetic of the builders *)

(** [bin(n)[2:]]: the binary digits of [n], most significant first. For a
    negative [n], [bin] gives ['-0b...'] and the slice starts at the ['b']. *)
Fixpoint bin_pos (p : positive) (acc : list ascii) : list ascii :=
  match p with
  | xH => "1"%char :: acc
  | xO p' => bin_pos p' ("0"%char :: acc)
  | xI p' => bin_pos p' ("1"%char :: acc)
  end.

Definition bin_tail (n : Z) : list ascii :=
  match n with
  | Z0 => ["0"%char]
  | Zpos p => bin_pos p []
  | Zneg p => "b"%char :: bin_pos p []
  end.

(** [int(char)] for a decimal digit; on the digits of [bin] it is 0 or 1. *)
Definition int_digit (char : ascii) : Z := Z.of_nat (nat_of_ascii char) - 48.

(** [k * "0" + s]: a repetition count that is not positive gives the empty string. *)
Definition zero_pad (k : Z) (s : list ascii) : list ascii :=
  replicate (Z.to_nat k) "0"%char ++ s.

(** [round(x)] for the float [x = h / 2]: to the nearest integer, a tie to the
    even one.  [w - 0.5] is exactly [(2w - 1) / 2] for every width a machine
    can hold. *)
Definition py_round_halves (h : Z) : Z :=
  let q := h `div` 2 in
  if Z.even h then q else if Z.even q then q else q + 1.

(** [a // b] *)
Definition floordiv {A} (a b : Z) (k : Z → M A) : M A :=
  if b =? 0 then raise ZeroDivisionError else k (a `div` b).

(** [enumerate(l, start)] *)
Definition enumerate {A} (start : Z) (l : list A) : list (Z * A) :=
  imap (λ i x, (start + Z.of_nat i, x)) l.

(** ** Decoder creation *)

Definition run_builder (body : M unit) (c : Circuit) : result Circuit :=
  match body c with
  | (Ok _, c') => Ok c'
  | (Raise e, _) => Raise e
  end.

Definition decoder_number (address_bit_width index : Z) : list ascii :=
  zero_pad (address_bit_width - len (bin_tail index)) (bin_tail index).

Definition decoder_inputs (address_bit_width : Z) (number : list ascii) : list (Z * Z * Z) :=
  (λ '(off, char), (1 + int_digit char, address_bit_width - off - 1, 0)) <$> enumerate 0 number.

Definition create_decoder_body (address_bit_width : Z) : M unit :=
  let n := 2 ^ address_bit_width in
  for_loop (py_range 0 address_bit_width 1) (λ oy _,
    add_logic (LogicGate_init (0, oy, 0) "and" "eeee22") ;;;
    add_logic (LogicGate_init (1, oy, 0) "and" "222222") ;;;
    add_logic (LogicGate_init (2, oy, 0) "nor" "222222") ;;;
    wire_gates [(0, oy, 0)] [(1, oy, 0); (2, oy, 0)]) tt ;;;
  let index := 0 in
  floordiv n (py_round_halves (2 * address_bit_width - 1)) (λ split,
  for_loop (py_range (split + 2) 2 (-1)) (λ ox index,
    floordiv n split (λ rows,
    for_loop (py_range 0 rows 1) (λ oy index,
      add_logic (LogicGate_init (ox, oy, 0) "and" "222222") ;;;
      let number := decoder_number address_bit_width index in
      wire_gates (decoder_inputs address_bit_width number) [(ox, oy, 0)] ;;;
      ret (index + 1)) index)) index ;;;
  ret tt).

(** For a negative width [2 ** address_bit_width] is a float, so is [split],
    and [range(split + 2, 2, -1)] raises [TypeError] (the first loop runs
    over an empty range). *)
Definition create_decoder (address_bit_width : Z) : result Circuit :=
  if address_bit_width <? 0 then Raise TypeError
  else run_builder (create_decoder_body address_bit_width) Circuit_init.

(** ** The default bit function *)

Definition square_func (index bit_width : Z) : list ascii :=
  let n := index ^ 2 in
  zero_pad (bit_width - len (bin_tail n)) (bin_tail n).

(** ** Look-up table creation *)

(** The inner loop of [create_lut] that collects [outputs]. *)
Definition lut_outputs (address_bit_width output_bit_width : Z) (func : list ascii)
  : list (Z * Z * Z) :=
  foldl (λ outputs '(off, char),
           if Ascii.eqb char "1" then outputs ++ [(0, off - address_bit_width, 0)]
           else outputs)
        [] (enumerate output_bit_width func).

Definition create_lut_body (address_bit_width output_bit_width : Z)
    (str_function : Z → Z → list ascii) : M unit :=
  let n := 2 ^ address_bit_width in
  for_loop (py_range address_bit_width (address_bit_width + output_bit_width) 1) (λ oy _,
    add_logic (LogicGate_init (0, oy, 0) "or" "22ee22")) tt ;;;
  let index := 0 in
  floordiv n (py_round_halves (2 * address_bit_width - 1)) (λ split,
  for_loop (py_range 3 (split + 3) 1) (λ ox index,
    floordiv n split (λ rows,
    for_loop (py_range (rows - 1) (-1) (-1)) (λ oy index,
      let func := reverse (str_function index output_bit_width) in
      let outputs := lut_outputs address_bit_width output_bit_width func in
      wire_gates [(ox, oy, 0)] outputs ;;;
      ret (index + 1)) index)) index ;;;
  ret tt).

Definition create_lut (address_bit_width output_bit_width : Z)
    (str_function : Z → Z → list ascii) : result Circuit :=
  match create_decoder address_bit_width with
  | Raise e => Raise e
  | Ok lut => run_builder (create_lut_body address_bit_width output_bit_width str_function) lut
  end.

(** * Vocabulary of the properties *)

(** The slot the spatial index holds for a coordinate. *)
Definition slot_at (c : Circuit) (p : Z * Z * Z) : option nat :=
  default ∅ (default ∅ (index_lut c !! p.1.1) !! p.1.2) !! p.2.

(** Gate [s] has [t] in its [connections]. *)
Definition drives (c : Circuit) (s t : nat) : Prop :=
  ∃ g, logic_gates c !! s = Some g ∧ t ∈ connections g.

(** Every slot of the spatial index is a position of [logic_gates]. *)
Definition slots_in_range (c : Circuit) : Prop :=
  ∀ p s, slot_at c p = Some s → (s < length (logic_gates c))%nat.

(** The slot the index holds for a coordinate is a gate at that coordinate. *)
Definition indexed (c : Circuit) : Prop :=
  ∀ p s, slot_at c p = Some s → position <$> logic_gates c !! s = Some p.

(** The circuits the class can reach: the counter is the number of gates,
    slots and wire targets point into [logic_gates], and a slot of the index
    is a gate at the indexed coordinate. *)
Record wf (c : Circuit) : Prop := mkWf {
  wf_counter : id_counter c = length (logic_gates c);
  wf_slots : slots_in_range c;
  wf_targets : ∀ s t, drives c s t → (t < length (logic_gates c))%nat;
  wf_indexed : indexed c
}.

(** Unfolds the monad operations of a method body. *)
Ltac run := unfold bind, ret, raise, get_self, set_index_lut, set_logic_gates,
  set_id_counter, getitem; simpl.

(** What [generate_lut] leaves in the index: the three levels exist and the
    innermost keeps the slot it had, or gets [n]. *)
Definition registered (p : Z * Z * Z) (n : nat) (lut : gmap Z (gmap Z (gmap Z nat)))
  : gmap Z (gmap Z (gmap Z nat)) :=
  let lx := default ∅ (lut !! p.1.1) in
  let ly := default ∅ (lx !! p.1.2) in
  <[p.1.1 := <[p.1.2 := <[p.2 := default n (ly !! p.2)]> ly]> lx]> lut.

(** Reads back the entries [generate_lut] has just written. *)
Ltac step_lut :=
  repeat (first [rewrite lookup_insert_eq | rewrite lookup_empty
                | rewrite insert_insert_eq ];
          unfold ret, raise; simpl).

(** One connection attempt: append the target's slot to the source gate when
    both coordinates are occupied, else nothing. *)
Definition wire_step (c : Circuit) (p : (Z * Z * Z) * (Z * Z * Z)) : Circuit :=
  match slot_at c p.1, slot_at c p.2 with
  | Some s, Some d =>
    match logic_gates c !! s with
    | Some g => {| logic_gates := <[s := connect_to g d]> (logic_gates c);
                   index_lut := index_lut c; id_counter := id_counter c |}
    | None => c
    end
  | _, _ => c
  end.

(** The pairs [wire_gates] attempts, by the lengths of its two lists; [None]
    when it raises. *)
Definition wire_pairs (input_pos output_pos : list (Z * Z * Z))
  : option (list ((Z * Z * Z) * (Z * Z * Z))) :=
  if decide (length input_pos = length output_pos) then Some (zip input_pos output_pos)
  else match input_pos with
       | [i0] => Some (pair i0 <$> output_pos)
       | _ => match output_pos with
              | [o0] => Some ((λ i, (i, o0)) <$> input_pos)
              | _ => None
              end
       end.

(** [m] started in a state satisfying [P] returns, in a state satisfying [Q]. *)
Definition returns {A} (P : Circuit → Prop) (m : M A) (Q : A → Circuit → Prop) : Prop :=
  ∀ c, P c → ∃ a c', m c = (Ok a, c') ∧ Q a c'.

(** [round(address_bit_width - 0.5)], [split] and [n // split]. *)
Definition grid_round (w : Z) : Z := py_round_halves (2 * w - 1).
Definition grid_split (w : Z) : Z := 2 ^ w `div` grid_round w.
Definition grid_rows (w : Z) : Z := 2 ^ w `div` grid_split w.


(** A read-only call on a circuit. *)
Inductive query : Type :=
  | Q_is_solid (position : Z * Z * Z)
  | Q_get_block (position : Z * Z * Z).

Definition ask (q : query) : M unit :=
  match q with
  | Q_is_solid p => is_solid p ;;; ret tt
  | Q_get_block p => get_block p ;;; ret tt
  end.

(** Two gates placed on the same coordinate of an empty circuit. *)
Definition collision_first : LogicGate := LogicGate_init (0, 0, 0) "and" "eeeeee".
Definition collision_second : LogicGate := LogicGate_init (0, 0, 0) "or" "22ee22".
Definition collision_before : Circuit := (add_logic collision_first Circuit_init).2.
Definition collision_after : Circuit := (add_logic collision_second collision_before).2.

(** The number a string of binary digits denotes, most significant digit first. *)
Definition bits_value (s : list ascii) : Z :=
  foldl (λ acc char, 2 * acc + int_digit char) 0 s.

(** A binary digit. *)
Definition is_bit (char : ascii) : Prop := char = "0"%char ∨ char = "1"%char.

(** Line gates are placed in the order (0,y), (1,y), (2,y) for y = 0, 1, ...;
    [n] counts the line gates placed so far. *)
Definition placed_line (n x y : Z) : Prop := 0 ≤ x ≤ 2 ∧ 0 ≤ y ∧ 3 * y + x < n.

(** Decode gates are placed column by column; [u] counts columns from the
    first one placed ([ox = split + 2 - u]), [a] full columns and [b] gates of
    the next one are placed so far. *)
Definition placed_decode (split rows a b u y : Z) : Prop :=
  0 ≤ u < split ∧ 0 ≤ y < rows ∧ (u < a ∨ (u = a ∧ y < b)).

#[local] Instance placed_line_dec n x y : Decision (placed_line n x y).
Proof. unfold placed_line. apply _. Defined.

#[local] Instance placed_decode_dec split rows a b u y :
  Decision (placed_decode split rows a b u y).
Proof. unfold placed_decode. apply _. Defined.

(** The spatial index of a decoder under construction: line gate (x, y) has
    slot [3y + x], the decode gate of column [u], row [y] has slot
    [3w + u * rows + y]. *)
Definition decoder_slot_spec (w n a b : Z) (p : Z * Z * Z) : option nat :=
  let u := grid_split w + 2 - p.1.1 in
  if bool_decide (p.2 = 0 ∧ placed_line n p.1.1 p.1.2)
  then Some (Z.to_nat (3 * p.1.2 + p.1.1))
  else if bool_decide (p.2 = 0 ∧ placed_decode (grid_split w) (grid_rows w) a b u p.1.2)
  then Some (Z.to_nat (3 * w + u * grid_rows w + p.1.2))
  else None.

(** The gates, counter and spatial index after [n] line gates and the decode
    gates before column [a], row [b]. *)
Record slots_inv (w n a b : Z) (c : Circuit) : Prop := mkSlotsInv {
  si_length : length (logic_gates c) = Z.to_nat (n + a * grid_rows w + b);
  si_counter : id_counter c = length (logic_gates c);
  si_slot : ∀ p, slot_at c p = decoder_slot_spec w n a b p
}.

(** The wires of the decoder after [j] lines are wired and the decode gates
    placed before column [a], row [b] are wired. *)
Definition decoder_drives_spec (w j a b : Z) (s t : nat) : Prop :=
  (∃ y, 0 ≤ y < j ∧ s = Z.to_nat (3 * y) ∧
        (t = Z.to_nat (3 * y + 1) ∨ t = Z.to_nat (3 * y + 2)))
  ∨ (∃ u y (off : nat) char,
        placed_decode (grid_split w) (grid_rows w) a b u y ∧
        decoder_number w (u * grid_rows w + y) !! off = Some char ∧
        s = Z.to_nat (3 * (w - Z.of_nat off - 1) + 1 + int_digit char) ∧
        t = Z.to_nat (3 * w + u * grid_rows w + y)).

Definition drives_inv (w j a b : Z) (c : Circuit) : Prop :=
  ∀ s t, drives c s t ↔ decoder_drives_spec w j a b s t.

(** Decides a lookup in [decoder_slot_spec] by linear arithmetic. *)
Ltac split_slot_cases :=
  unfold decoder_slot_spec; simpl;
  repeat case_decide; repeat case_bool_decide; simplify_eq;
  repeat match goal with
         | H : (?a, ?b, ?c) ≠ (?d, ?e, ?f) |- _ =>
           assert (¬ (a = d ∧ b = e ∧ c = f))
             by (intros (? & ? & ?); apply H; congruence);
           clear H
         end;
  unfold placed_line, placed_decode in *;
  try (exfalso; lia); try (f_equal; lia); try done.

(** The coordinate of the decode gate placed in iteration [index]. *)
Definition decode_pos (w index : Z) : Z * Z * Z :=
  (grid_split w + 2 - index `div` grid_rows w, index `mod` grid_rows w, 0).

(** The gate at coordinate [p] has the slot of the gate at [q] in its
    [connections]. *)
Definition wired (c : Circuit) (p q : Z * Z * Z) : Prop :=
  ∃ s t, get_block p c = (Ok (Some s), c) ∧ get_block q c = (Ok (Some t), c) ∧
         drives c s t.

(** The circuits of the examples. *)
Definition decoder_2 : Circuit :=
  match create_decoder 2 with Ok c => c | Raise _ => Circuit_init end.

Definition lut_2_3 : Circuit :=
  match create_lut 2 3 square_func with Ok c => c | Raise _ => Circuit_init end.
Definition lut_2_4 : Circuit :=
  match create_lut 2 4 square_func with Ok c => c | Raise _ => Circuit_init end.
Definition lut_default : Circuit :=
  match create_lut 8 8 square_func with Ok c => c | Raise _ => Circuit_init end.

(** A call a user of the class makes on a circuit: placing a gate built by
    [LogicGate(position, mode, color)], or wiring two lists of coordinates. *)
Inductive call : Type :=
  | Call_add_logic (position : Z * Z * Z) (mode color : string)
  | Call_wire_gates (input_pos output_pos : list (Z * Z * Z)).

Definition do_call (k : call) : M unit :=
  match k with
  | Call_add_logic p md col => add_logic (LogicGate_init p md col)
  | Call_wire_gates input_pos output_pos => wire_gates input_pos output_pos
  end.

(** What wiring never touches in a gate. *)
Definition gate_attrs (g : LogicGate) : (Z * Z * Z) * Z * string :=
  (position g, mode g, color g).

(** The mode and colour [create_decoder] gives the gate at a coordinate:
    "and"/"eeee22" for x = 0, "nor"/"222222" for x = 2, "and"/"222222"
    elsewhere; [create_lut] adds "or"/"22ee22" for x = 0, y >= w. *)
Definition decoder_kind (p : Z * Z * Z) : Z * string :=
  if bool_decide (p.1.1 = 0) then (0, "eeee22"%string)
  else if bool_decide (p.1.1 = 2) then (4, "222222"%string)
  else (0, "222222"%string).

Definition lut_kind (w : Z) (p : Z * Z * Z) : Z * string :=
  if bool_decide (p.1.1 = 0 ∧ w ≤ p.1.2) then (1, "22ee22"%string)
  else decoder_kind p.

(** Every indexed gate has the mode and colour [kind] gives its coordinate. *)
Definition kinds (kind : Z * Z * Z → Z * string) (c : Circuit) : Prop :=
  ∀ p s g, slot_at c p = Some s → logic_gates c !! s = Some g →
           (mode g, color g) = kind p.

(** The coordinate of the decode gate [create_lut] wires in iteration [index]. *)
Definition lut_pos (w index : Z) : Z * Z * Z :=
  (3 + index `div` grid_rows w, grid_rows w - 1 - index `mod` grid_rows w, 0).

(** The spatial index of a look-up table after [k] OR gates: the OR gate for
    output bit [j] is at (0, w + j, 0), after the gates of the decoder. *)
Definition lut_slot_spec (w k : Z) (p : Z * Z * Z) : option nat :=
  if bool_decide (p.2 = 0 ∧ p.1.1 = 0 ∧ w ≤ p.1.2 < w + k)
  then Some (Z.to_nat (3 * w + grid_split w * grid_rows w + (p.1.2 - w)))
  else decoder_slot_spec w (3 * w) (grid_split w) 0 p.

Record lut_slots_inv (w k : Z) (c : Circuit) : Prop := mkLutSlotsInv {
  li_length : length (logic_gates c) = Z.to_nat (3 * w + grid_split w * grid_rows w + k);
  li_slot : ∀ p, slot_at c p = lut_slot_spec w k p
}.

(** The wires [create_lut] has added when the iterations before column [a],
    row [b] are done, in a table with [k] OR gates. *)
Definition lut_edges (w m : Z) (f : Z → Z → list ascii) (k a b : Z) (s t : nat) : Prop :=
  ∃ a' b' (j : nat),
    placed_decode (grid_split w) (grid_rows w) a b a' b' ∧
    reverse (f (a' * grid_rows w + b') m) !! j = Some "1"%char ∧
    lut_slot_spec w k (3 + a', grid_rows w - 1 - b', 0) = Some s ∧
    lut_slot_spec w k (0, m + Z.of_nat j - w, 0) = Some t.

(** Decides a lookup in [lut_slot_spec] by linear arithmetic. *)
Ltac split_lut_cases :=
  unfold lut_slot_spec, decoder_slot_spec; simpl;
  repeat case_decide; repeat case_bool_decide; simplify_eq;
  repeat match goal with
         | H : (?a, ?b, ?c) ≠ (?d, ?e, ?f) |- _ =>
           assert (¬ (a = d ∧ b = e ∧ c = f))
             by (intros (? & ? & ?); apply H; congruence);
           clear H
         end;
  unfold placed_line, placed_decode in *;
  try (exfalso; lia); try (f_equal; lia); try done.

(** The slots the gate found at coordinate [p] gains from one connection per
    pair, in order: for each pair whose source is [p] and whose target is
    occupied, the slot [get_block] gives for the target. *)
Definition pair_targets (c : Circuit) (p : Z * Z * Z)
    (pairs : list ((Z * Z * Z) * (Z * Z * Z))) : list nat :=
  omap (λ io, if bool_decide (io.1 = p) then slot_at c io.2 else None) pairs.

(** * Properties *)

(** ** Pure views of a circuit *)

Lemma get_block_run p c : get_block p c = (Ok (slot_at c p), c).
Proof. by destruct p as [[px py] pz]. Qed.

Lemma is_solid_run p c : is_solid p c = (Ok (bool_decide (is_Some (slot_at c p))), c).
Proof.
  destruct p as [[px py] pz]. unfold is_solid, slot_at. run.
  destruct (index_lut c !! px) as [lx|] eqn:Hx; simpl; [|done].
  destruct (lx !! py) as [ly|] eqn:Hy; simpl; [|done].
  by destruct (ly !! pz) eqn:Hz.
Qed.

Lemma slot_at_init p : slot_at Circuit_init p = None.
Proof. done. Qed.

Lemma wf_init : wf Circuit_init.
Proof.
  split; [done| | |]; intros ??; [by rewrite slot_at_init| |by rewrite slot_at_init].
  intros [g [Hg _]]. by destruct s.
Qed.

(** *** [generate_lut] and [add_logic] *)

Lemma generate_lut_index p c :
  generate_lut p c =
  (Ok tt, {| logic_gates := logic_gates c;
             index_lut := registered p (id_counter c) (index_lut c);
             id_counter := S (id_counter c) |}).
Proof.
  destruct p as [[px py] pz]. unfold generate_lut, registered. run.
  assert (∀ n, (n + 1)%nat = S n) as Hn by lia.
  destruct (index_lut c !! px) as [lx|] eqn:Hx; simpl.
  - rewrite Hx. simpl. destruct (lx !! py) as [ly|] eqn:Hy; simpl.
    + rewrite Hx. simpl. rewrite Hy. simpl.
      destruct (ly !! pz) as [n|] eqn:Hz; simpl; rewrite Hn; [|done].
      by rewrite (insert_id ly), (insert_id lx), (insert_id (index_lut c)).
    + step_lut. by rewrite Hn.
  - step_lut. by rewrite Hn.
Qed.

Lemma slot_at_registered p n c q lut gs k :
  lut = index_lut c →
  slot_at {| logic_gates := gs; index_lut := registered p n lut; id_counter := k |} q =
  if decide (q = p) then Some (default n (slot_at c p)) else slot_at c q.
Proof.
  intros ->. destruct p as [[px py] pz], q as [[qx qy] qz].
  unfold slot_at, registered. simpl. case_decide as Hq.
  { injection Hq as -> -> ->. by step_lut. }
  destruct (decide (qx = px)) as [->|]; [|by rewrite lookup_insert_ne].
  rewrite lookup_insert_eq. simpl.
  destruct (decide (qy = py)) as [->|]; [|by rewrite lookup_insert_ne].
  rewrite lookup_insert_eq. simpl.
  rewrite lookup_insert_ne; [done|congruence].
Qed.

Lemma generate_lut_run p c :
  ∃ c', generate_lut p c = (Ok tt, c') ∧
        logic_gates c' = logic_gates c ∧
        id_counter c' = S (id_counter c) ∧
        ∀ q, slot_at c' q =
             if decide (q = p) then Some (default (id_counter c) (slot_at c p))
             else slot_at c q.
Proof.
  eexists. split; [apply generate_lut_index|]. simpl. repeat split.
  intros q. by apply slot_at_registered.
Qed.

Lemma add_logic_run g c :
  ∃ c', add_logic g c = (Ok tt, c') ∧
        logic_gates c' = logic_gates c ++ [g] ∧
        id_counter c' = S (id_counter c) ∧
        ∀ q, slot_at c' q =
             if decide (q = position g) then Some (default (id_counter c) (slot_at c (position g)))
             else slot_at c q.
Proof.
  unfold add_logic. run.
  destruct (generate_lut_run (position g)
    {| logic_gates := logic_gates c ++ [g]; index_lut := index_lut c;
       id_counter := id_counter c |}) as (c' & -> & Hg & Hn & Hs).
  by exists c'.
Qed.

(** *** [wire_gates] as a fold over the pairs it connects *)

Lemma py_range_len {A} (l : list A) :
  py_range 0 (len l) 1 = Z.of_nat <$> seq 0 (length l).
Proof.
  unfold py_range, len. simpl.
  replace (Z.of_nat (length l) - 0 + 1 - 1) with (Z.of_nat (length l)) by lia.
  rewrite Z.div_1_r, Nat2Z.id. apply list_fmap_ext. intros _ i _. lia.
Qed.

Lemma list_item_run {A} (l : list A) (i : nat) x c :
  l !! i = Some x → list_item l (Z.of_nat i) c = (Ok x, c).
Proof. intros H. unfold list_item. by rewrite Nat2Z.id, H. Qed.

Lemma wire_step_index_lut c p : index_lut (wire_step c p) = index_lut c.
Proof.
  unfold wire_step. destruct (slot_at c p.1), (slot_at c p.2); try done.
  by destruct (logic_gates c !! _).
Qed.

Lemma wire_step_id_counter c p : id_counter (wire_step c p) = id_counter c.
Proof.
  unfold wire_step. destruct (slot_at c p.1), (slot_at c p.2); try done.
  by destruct (logic_gates c !! _).
Qed.

Lemma wire_step_length c p :
  length (logic_gates (wire_step c p)) = length (logic_gates c).
Proof.
  unfold wire_step. destruct (slot_at c p.1), (slot_at c p.2); try done.
  destruct (logic_gates c !! _); [|done]. simpl. by rewrite length_insert.
Qed.

Lemma slot_at_index_lut c c' p : index_lut c' = index_lut c → slot_at c' p = slot_at c p.
Proof. unfold slot_at. by intros ->. Qed.

Lemma wire_step_slot_at c p q : slot_at (wire_step c p) q = slot_at c q.
Proof. apply slot_at_index_lut, wire_step_index_lut. Qed.

Lemma wire_step_slots_in_range c p : slots_in_range c → slots_in_range (wire_step c p).
Proof.
  intros H q s. rewrite wire_step_slot_at, wire_step_length. apply H.
Qed.

Lemma foldl_wire_step_index_lut ps c : index_lut (foldl wire_step c ps) = index_lut c.
Proof.
  revert c. induction ps as [|p ps IH]; intros c; simpl; [done|].
  by rewrite IH, wire_step_index_lut.
Qed.

Lemma foldl_wire_step_id_counter ps c : id_counter (foldl wire_step c ps) = id_counter c.
Proof.
  revert c. induction ps as [|p ps IH]; intros c; simpl; [done|].
  by rewrite IH, wire_step_id_counter.
Qed.

Lemma foldl_wire_step_length ps c :
  length (logic_gates (foldl wire_step c ps)) = length (logic_gates c).
Proof.
  revert c. induction ps as [|p ps IH]; intros c; simpl; [done|].
  by rewrite IH, wire_step_length.
Qed.

Lemma foldl_wire_step_slot_at ps c q : slot_at (foldl wire_step c ps) q = slot_at c q.
Proof. apply slot_at_index_lut, foldl_wire_step_index_lut. Qed.

Lemma foldl_wire_step_slots_in_range ps c :
  slots_in_range c → slots_in_range (foldl wire_step c ps).
Proof.
  intros H q s. rewrite foldl_wire_step_slot_at, foldl_wire_step_length. apply H.
Qed.

(** A pair with an unoccupied endpoint is skipped. *)
Lemma wire_step_skip c p :
  slot_at c p.1 = None ∨ slot_at c p.2 = None → wire_step c p = c.
Proof.
  unfold wire_step. intros [->| ->]; [done|]. by destruct (slot_at c p.1).
Qed.

Lemma foldl_wire_step_skip ps c :
  (∀ p, p ∈ ps → slot_at c p.1 = None ∨ slot_at c p.2 = None) →
  foldl wire_step c ps = c.
Proof.
  induction ps as [|p ps IH]; simpl; [done|]. intros H.
  rewrite wire_step_skip by (apply H; left). apply IH. intros q Hq. apply H. by right.
Qed.

Lemma connect_run c i o :
  slots_in_range c → is_Some (slot_at c i) → is_Some (slot_at c o) →
  connect i o c = (Ok tt, wire_step c (i, o)).
Proof.
  intros Hr [s Hs] [d Hd]. unfold connect, wire_step. run.
  rewrite !get_block_run. simpl. rewrite Hs, Hd.
  destruct (lookup_lt_is_Some_2 (logic_gates c) s (Hr _ _ Hs)) as [g Hg].
  rewrite Hg, get_block_run, Hd. done.
Qed.

(** A loop over [range(len(l))] whose body handles [l[index]] by [f]. *)
Lemma for_loop_items {A} (P : Circuit → Prop) (f : Circuit → A → Circuit)
    (body : Z → unit → M unit) (l : list A) (k n : nat) c :
  n = length l →
  (∀ i x c, l !! i = Some x → P c →
            body (Z.of_nat (k + i)) tt c = (Ok tt, f c x) ∧ P (f c x)) →
  P c →
  for_loop (Z.of_nat <$> seq k n) body tt c = (Ok tt, foldl f c l)
  ∧ P (foldl f c l).
Proof.
  intros ->. revert k c. induction l as [|x l IH]; intros k c Hbody HP; simpl; [done|].
  destruct (Hbody 0%nat x c eq_refl HP) as [Hrun HP'].
  rewrite Nat.add_0_r in Hrun. unfold bind. rewrite Hrun.
  apply IH; [|done]. intros i y c' Hi HPc'.
  replace (S k + i)%nat with (k + S i)%nat by lia. by apply Hbody.
Qed.

Lemma wire_gates_run input_pos output_pos c :
  slots_in_range c →
  wire_gates input_pos output_pos c =
  match wire_pairs input_pos output_pos with
  | Some ps => (Ok tt, foldl wire_step c ps)
  | None => (Raise ArityMismatch, c)
  end.
Proof.
  intros Hr. unfold wire_gates, wire_pairs, len.
  set (P := λ c' : Circuit, slots_in_range c' ∧ index_lut c' = index_lut c).
  assert (HP : P c) by done.
  assert (HPstep : ∀ c' p, P c' → P (wire_step c' p)).
  { intros c' p [H1 H2]. split; [by apply wire_step_slots_in_range|].
    by rewrite wire_step_index_lut. }
  case_decide as Hlen.
  - rewrite Hlen, Z.eqb_refl. fold (len output_pos). rewrite py_range_len.
    rewrite <- Hlen.
    apply (for_loop_items P wire_step _ (zip input_pos output_pos));
      [by rewrite length_zip_with_l_eq| |done].
    intros i [a b] c' Hi HPc'. split; [|by apply HPstep].
    apply lookup_zip_with_Some in Hi as (a' & b' & [= <- <-] & Ha & Hb).
    rewrite Nat.add_0_l. unfold bind. rewrite (list_item_run _ _ _ _ Ha), is_solid_run.
    destruct HPc' as [Hr' _]. case_bool_decide as Hsa.
    + rewrite (list_item_run _ _ _ _ Hb), is_solid_run. case_bool_decide as Hsb; simpl.
      * rewrite (list_item_run _ _ _ _ Ha), (list_item_run _ _ _ _ Hb).
        by apply connect_run.
      * rewrite wire_step_skip; [done|]. right. simpl. by apply eq_None_not_Some.
    + simpl. rewrite wire_step_skip; [done|]. left. simpl. by apply eq_None_not_Some.
  - destruct (Z.eqb_spec (Z.of_nat (length input_pos)) (Z.of_nat (length output_pos)))
      as [Heq|_]; [lia|].
    destruct (Z.eqb_spec (Z.of_nat (length input_pos)) 1) as [H1|H1].
    { destruct input_pos as [|i0 [|i1 input_pos]]; simpl in H1; try lia.
      unfold bind. change (list_item [i0] 0) with (list_item [i0] (Z.of_nat 0)).
      rewrite (list_item_run [i0] 0 i0) by done. rewrite is_solid_run.
      case_bool_decide as Hsa; cbn [negb].
      - fold (len output_pos). rewrite py_range_len.
        apply (for_loop_items P wire_step _ (pair i0 <$> output_pos));
          [by rewrite length_fmap| |done].
        intros i [a b] c' Hi HPc'. split; [|by apply HPstep].
        apply list_lookup_fmap_Some in Hi as (o & [= -> ->] & Ho).
        rewrite Nat.add_0_l.
        unfold bind. rewrite (list_item_run _ _ _ _ Ho), is_solid_run.
        destruct HPc' as [Hr' Hlut]. case_bool_decide as Hsb; cbn [negb].
        + change (list_item [i0] 0) with (list_item [i0] (Z.of_nat 0)).
          rewrite (list_item_run [i0] 0 i0) by done.
          rewrite (list_item_run _ _ _ _ Ho).
          apply connect_run; [done| |done].
          by rewrite (slot_at_index_lut c).
        + rewrite wire_step_skip; [done|]. right. simpl. by apply eq_None_not_Some.
      - rewrite foldl_wire_step_skip; [done|].
        intros p Hp. apply list_elem_of_fmap in Hp as (o & -> & _).
        left. simpl. by apply eq_None_not_Some. }
    destruct (Z.eqb_spec (Z.of_nat (length output_pos)) 1) as [H2|H2].
    { destruct output_pos as [|o0 [|o1 output_pos]]; simpl in H2; try lia.
      assert (match input_pos with
              | [i0] => Some (pair i0 <$> [o0])
              | _ => Some ((λ i, (i, o0)) <$> input_pos)
              end = Some ((λ i, (i, o0)) <$> input_pos)) as ->.
      { destruct input_pos as [|i0 [|i1 input_pos]]; simpl in H1; try done. }
      unfold bind. change (list_item [o0] 0) with (list_item [o0] (Z.of_nat 0)).
      rewrite (list_item_run [o0] 0 o0) by done. rewrite is_solid_run.
      case_bool_decide as Hsa; cbn [negb].
      - fold (len input_pos). rewrite py_range_len.
        apply (for_loop_items P wire_step _ ((λ i, (i, o0)) <$> input_pos));
          [by rewrite length_fmap| |done].
        intros i [a b] c' Hi HPc'. split; [|by apply HPstep].
        apply list_lookup_fmap_Some in Hi as (o & [= -> ->] & Ho).
        rewrite Nat.add_0_l.
        unfold bind. rewrite (list_item_run _ _ _ _ Ho), is_solid_run.
        destruct HPc' as [Hr' Hlut]. case_bool_decide as Hsb; cbn [negb].
        + rewrite (list_item_run _ _ _ _ Ho).
          change (list_item [o0] 0) with (list_item [o0] (Z.of_nat 0)).
          rewrite (list_item_run [o0] 0 o0) by done.
          apply connect_run; [done|done|].
          by rewrite (slot_at_index_lut c).
        + rewrite wire_step_skip; [done|]. left. simpl. by apply eq_None_not_Some.
      - rewrite foldl_wire_step_skip; [done|].
        intros p Hp. apply list_elem_of_fmap in Hp as (o & -> & _).
        right. simpl. by apply eq_None_not_Some. }
    destruct input_pos as [|i0 [|i1 input_pos]]; simpl in H1; try lia;
      destruct output_pos as [|o0 [|o1 output_pos]]; simpl in H2; try lia; done.
Qed.

(** *** What wiring and placing do to [drives] and to [wf] *)

Lemma drives_wire_step c p s t :
  slots_in_range c →
  drives (wire_step c p) s t ↔
  drives c s t ∨ (slot_at c p.1 = Some s ∧ slot_at c p.2 = Some t).
Proof.
  intros Hr. unfold wire_step.
  destruct (slot_at c p.1) as [s0|] eqn:Hs;
    [|split; [by left|intros [H|[H _]]; [done|congruence]]].
  destruct (slot_at c p.2) as [d|] eqn:Hd;
    [|split; [by left|intros [H|[_ H]]; [done|congruence]]].
  destruct (lookup_lt_is_Some_2 (logic_gates c) s0 (Hr _ _ Hs)) as [g Hg].
  rewrite Hg. unfold drives. simpl. split.
  - intros (g' & Hg' & Ht). destruct (decide (s = s0)) as [->|Hne].
    + rewrite list_lookup_insert_eq in Hg' by (by eapply lookup_lt_Some).
      injection Hg' as <-. simpl in Ht. apply elem_of_app in Ht as [Ht|Ht].
      * left. by exists g.
      * right. apply list_elem_of_singleton in Ht. by subst.
    + rewrite list_lookup_insert_ne in Hg' by done. left. by exists g'.
  - intros [(g' & Hg' & Ht)|[[= <-] [= <-]]].
    + destruct (decide (s = s0)) as [->|Hne].
      * exists (connect_to g d). rewrite list_lookup_insert_eq by (by eapply lookup_lt_Some).
        split; [done|]. simpl. apply elem_of_app. left. congruence.
      * exists g'. by rewrite list_lookup_insert_ne.
    + exists (connect_to g d). rewrite list_lookup_insert_eq by (by eapply lookup_lt_Some).
      split; [done|]. simpl. apply elem_of_app. right. by apply list_elem_of_singleton.
Qed.

Lemma drives_foldl_wire_step ps c s t :
  slots_in_range c →
  drives (foldl wire_step c ps) s t ↔
  drives c s t ∨ ∃ p, p ∈ ps ∧ slot_at c p.1 = Some s ∧ slot_at c p.2 = Some t.
Proof.
  revert c. induction ps as [|p ps IH]; intros c Hr; simpl.
  - split; [by left|]. intros [H|(p & Hp & _)]; [done|]. by apply elem_of_nil in Hp.
  - rewrite IH by (by apply wire_step_slots_in_range).
    rewrite drives_wire_step by done. setoid_rewrite wire_step_slot_at.
    split.
    + intros [[H|H]|(q & Hq & H)]; [by left| |].
      * right. exists p. split; [left|done].
      * right. exists q. split; [by right|done].
    + intros [H|(q & Hq & H)]; [by left; left|].
      apply elem_of_cons in Hq as [->|Hq]; [by left; right|].
      right. by exists q.
Qed.

Lemma wire_step_positions c p :
  position <$> logic_gates (wire_step c p) = position <$> logic_gates c.
Proof.
  unfold wire_step. destruct (slot_at c p.1) as [s|], (slot_at c p.2) as [d|]; try done.
  destruct (logic_gates c !! s) as [g|] eqn:Hg; [|done]. simpl.
  rewrite list_fmap_insert. apply list_insert_id.
  by rewrite list_lookup_fmap, Hg.
Qed.

Lemma foldl_wire_step_positions ps c :
  position <$> logic_gates (foldl wire_step c ps) = position <$> logic_gates c.
Proof.
  revert c. induction ps as [|p ps IH]; intros c; simpl; [done|].
  by rewrite IH, wire_step_positions.
Qed.

Lemma wf_foldl_wire_step ps c : wf c → wf (foldl wire_step c ps).
Proof.
  intros [Hc Hs Ht Hi]. split.
  - by rewrite foldl_wire_step_id_counter, foldl_wire_step_length.
  - by apply foldl_wire_step_slots_in_range.
  - intros s t. rewrite drives_foldl_wire_step, foldl_wire_step_length by done.
    intros [H|(p & _ & _ & H)]; [by eapply Ht|by eapply Hs].
  - intros p s. rewrite foldl_wire_step_slot_at, <- list_lookup_fmap.
    rewrite foldl_wire_step_positions, list_lookup_fmap. apply Hi.
Qed.

Lemma drives_lookup c s t l :
  connections <$> logic_gates c !! s = Some l → drives c s t ↔ t ∈ l.
Proof.
  intros H. unfold drives. destruct (logic_gates c !! s) as [g|]; [|done].
  injection H as <-. split; [by intros (g' & [= <-] & ?)|]. intros ?. by exists g.
Qed.

Lemma drives_app_gate c c' g s t :
  logic_gates c' = logic_gates c ++ [g] →
  drives c' s t ↔ drives c s t ∨ (s = length (logic_gates c) ∧ t ∈ connections g).
Proof.
  intros Hg. unfold drives. rewrite Hg. split.
  - intros (g' & Hg' & Ht). apply lookup_app_Some in Hg' as [Hg'|[Hle Hg']].
    + left. by exists g'.
    + right. apply list_lookup_singleton_Some in Hg' as [Hs <-]. split; [lia|done].
  - intros [(g' & Hg' & Ht)|[-> Ht]].
    + exists g'. split; [|done]. by apply lookup_app_l_Some.
    + exists g. split; [|done]. rewrite lookup_app_r by lia.
      by rewrite Nat.sub_diag.
Qed.

Lemma wf_add_logic g c :
  wf c → (∀ t, t ∈ connections g → (t ≤ length (logic_gates c))%nat) →
  ∃ c', add_logic g c = (Ok tt, c') ∧ wf c'.
Proof.
  intros [Hc Hs Ht Hi] Hg.
  destruct (add_logic_run g c) as (c' & Hrun & Hgates & Hcnt & Hslot).
  exists c'. split; [done|]. split.
  - rewrite Hcnt, Hgates, length_app. simpl. lia.
  - intros q s. rewrite Hslot, Hgates, length_app. simpl. case_decide as Hq.
    + destruct (slot_at c (position g)) as [s'|] eqn:Hs'; simpl; intros [= <-].
      * apply Hs in Hs'. lia.
      * lia.
    + intros H. apply Hs in H. lia.
  - intros s t. rewrite (drives_app_gate c c' g) by done.
    rewrite Hgates, length_app. simpl.
    intros [H|[_ H]]; [apply Ht in H|apply Hg in H]; lia.
  - intros q s. rewrite Hslot, Hgates. case_decide as Hq.
    + subst q. destruct (slot_at c (position g)) as [s'|] eqn:Hs'; simpl; intros [= <-].
      * rewrite lookup_app_l by (by eapply Hs). by apply Hi.
      * rewrite Hc, lookup_app_r by lia. by rewrite Nat.sub_diag.
    + intros H. rewrite lookup_app_l by (by eapply Hs). by apply Hi.
Qed.

Lemma wf_wire_gates input_pos output_pos c :
  wf c → is_Some (wire_pairs input_pos output_pos) →
  ∃ c', wire_gates input_pos output_pos c = (Ok tt, c') ∧ wf c'.
Proof.
  intros Hwf [ps Hps]. rewrite wire_gates_run by apply Hwf. rewrite Hps.
  eexists. split; [done|]. by apply wf_foldl_wire_step.
Qed.

Lemma wire_pairs_single_input i0 output_pos : is_Some (wire_pairs [i0] output_pos).
Proof. unfold wire_pairs. by case_decide. Qed.

Lemma wire_pairs_single_output input_pos o0 : is_Some (wire_pairs input_pos [o0]).
Proof.
  unfold wire_pairs. case_decide; [done|]. by destruct input_pos as [|? [|]].
Qed.

Lemma wire_pairs_fan_in input_pos o0 :
  length input_pos ≠ 1%nat →
  wire_pairs input_pos [o0] = Some ((λ i, (i, o0)) <$> input_pos).
Proof.
  intros H. unfold wire_pairs. simpl. case_decide; [done|].
  by destruct input_pos as [|? [|]].
Qed.

(** *** Loops that run to completion *)

Lemma returns_bind {A B} P (m : M A) Q (k : A → M B) R :
  returns P m Q → (∀ a, returns (Q a) (k a) R) → returns P (bind m k) R.
Proof.
  intros Hm Hk c HP. destruct (Hm c HP) as (a & c' & Hrun & HQ).
  unfold bind. rewrite Hrun. by apply Hk.
Qed.

Lemma returns_ret {A} (P : Circuit → Prop) (a : A) (Q : A → Circuit → Prop) :
  (∀ c, P c → Q a c) → returns P (ret a) Q.
Proof. intros H c HP. exists a, c. split; [done|by apply H]. Qed.

Lemma returns_for_loop {A St} (I : nat → St → Circuit → Prop) (l : list A)
    (body : A → St → M St) (s : St) :
  (∀ i x s, l !! i = Some x → returns (I i s) (body x s) (I (S i))) →
  returns (I 0%nat s) (for_loop l body s) (I (length l)).
Proof.
  revert I s. induction l as [|x l IH]; intros I s Hbody; simpl.
  - by apply returns_ret.
  - eapply returns_bind; [by apply (Hbody 0%nat)|]. intros s'.
    apply (IH (λ i, I (S i))). intros i y s'' Hi. by apply (Hbody (S i)).
Qed.

Lemma returns_floordiv {A} P (a b : Z) (k : Z → M A) Q :
  b ≠ 0 → returns P (k (a `div` b)) Q → returns P (floordiv a b k) Q.
Proof. intros Hb Hk. unfold floordiv. by destruct (Z.eqb_spec b 0). Qed.

(** *** [range] *)

Lemma py_range_up_lookup (a b : Z) (i : nat) x :
  py_range a b 1 !! i = Some x ↔ x = a + Z.of_nat i ∧ a + Z.of_nat i < b.
Proof.
  unfold py_range. simpl. rewrite Z.div_1_r, list_lookup_fmap.
  destruct (decide (i < Z.to_nat (b - a + 1 - 1))%nat) as [Hi|Hi].
  - rewrite lookup_seq_lt by done. simpl. split; [intros [= <-]|intros [-> _]]; [|f_equal]; lia.
  - rewrite lookup_seq_ge by lia. simpl. split; [done|lia].
Qed.

Lemma py_range_up_length (a b : Z) : length (py_range a b 1) = Z.to_nat (b - a).
Proof.
  unfold py_range. simpl. rewrite Z.div_1_r, length_fmap, length_seq. lia.
Qed.

Lemma py_range_down_lookup (a b : Z) (i : nat) x :
  py_range a b (-1) !! i = Some x ↔ x = a - Z.of_nat i ∧ b < a - Z.of_nat i.
Proof.
  unfold py_range. simpl. rewrite Z.div_1_r, list_lookup_fmap.
  destruct (decide (i < Z.to_nat (a - b - -1 - 1))%nat) as [Hi|Hi].
  - rewrite lookup_seq_lt by done. simpl. split; [intros [= <-]|intros [-> _]]; [|f_equal]; lia.
  - rewrite lookup_seq_ge by lia. simpl. split; [done|lia].
Qed.

Lemma py_range_down_length (a b : Z) : length (py_range a b (-1)) = Z.to_nat (a - b).
Proof.
  unfold py_range. simpl. rewrite Z.div_1_r, length_fmap, length_seq. lia.
Qed.

(** *** The grid arithmetic of the builders *)

Lemma grid_round_parity w : grid_round w = if Z.even w then w else w - 1.
Proof.
  unfold grid_round, py_round_halves.
  replace (Z.even (2 * w - 1)) with false
    by (symmetry; rewrite <- Z.negb_odd; replace (2 * w - 1) with (2 * (w - 1) + 1) by lia;
        by rewrite Z.odd_odd).
  replace ((2 * w - 1) `div` 2) with (w - 1) by (apply Z.div_unique with 1; lia).
  replace w with (Z.succ (w - 1)) at 2 3 by lia.
  rewrite Z.even_succ, <- Z.negb_even. destruct (Z.even (w - 1)); simpl; lia.
Qed.

Lemma grid_round_bounds w : 2 ≤ w → 2 ≤ grid_round w ≤ w.
Proof.
  intros Hw. rewrite grid_round_parity. destruct (Z.even w) eqn:He; [lia|].
  assert (w ≠ 2) by (intros ->; done). lia.
Qed.

Lemma grid_split_bounds w : 2 ≤ w → 1 ≤ grid_split w ≤ 2 ^ w.
Proof.
  intros Hw. pose proof (grid_round_bounds w Hw) as Hr.
  assert (w < 2 ^ w) by (apply Z.pow_gt_lin_r; lia).
  unfold grid_split. split.
  - apply Z.div_le_lower_bound; lia.
  - apply Z.div_le_upper_bound; nia.
Qed.

Lemma grid_rows_bounds w : 2 ≤ w → 1 ≤ grid_rows w ∧ grid_split w * grid_rows w ≤ 2 ^ w.
Proof.
  intros Hw. pose proof (grid_split_bounds w Hw) as Hs. unfold grid_rows. split.
  - apply Z.div_le_lower_bound; lia.
  - apply Z.mul_div_le. lia.
Qed.

(** ** No dangling wire targets *)

Lemma returns_add_logic_wf p md col :
  returns wf (add_logic (LogicGate_init p md col)) (λ _, wf).
Proof.
  intros c Hc. destruct (wf_add_logic (LogicGate_init p md col) c Hc) as (c' & ? & ?).
  - simpl. intros t Ht. by apply elem_of_nil in Ht.
  - by exists tt, c'.
Qed.

Lemma returns_wire_gates_wf input_pos output_pos :
  is_Some (wire_pairs input_pos output_pos) →
  returns wf (wire_gates input_pos output_pos) (λ _, wf).
Proof.
  intros Hp c Hc. destruct (wf_wire_gates input_pos output_pos c Hc Hp) as (c' & ? & ?).
  by exists tt, c'.
Qed.

Lemma create_decoder_body_wf w :
  2 ≤ w → returns wf (create_decoder_body w) (λ _, wf).
Proof.
  intros Hw. unfold create_decoder_body.
  pose proof (grid_round_bounds w Hw) as Hr.
  pose proof (grid_split_bounds w Hw) as Hs.
  unfold grid_split, grid_round in *.
  eapply returns_bind.
  { apply (returns_for_loop (λ _ _, wf)). intros i oy [] _.
    repeat (eapply returns_bind; [apply returns_add_logic_wf|intros []]).
    apply returns_wire_gates_wf, wire_pairs_single_input. }
  intros ?. apply returns_floordiv; [lia|].
  eapply returns_bind;
    [apply (returns_for_loop (λ _ _, wf))|intros ?; by apply returns_ret].
  intros i ox index _.
  apply returns_floordiv; [lia|].
  apply (returns_for_loop (λ _ _, wf)). intros j oy idx _.
  eapply returns_bind; [apply returns_add_logic_wf|intros []].
  eapply returns_bind;
    [apply returns_wire_gates_wf, wire_pairs_single_output|intros []; by apply returns_ret].
Qed.

Lemma create_lut_body_wf w m f :
  2 ≤ w → returns wf (create_lut_body w m f) (λ _, wf).
Proof.
  intros Hw. unfold create_lut_body.
  pose proof (grid_round_bounds w Hw) as Hr.
  pose proof (grid_split_bounds w Hw) as Hs.
  unfold grid_split, grid_round in *.
  eapply returns_bind.
  { apply (returns_for_loop (λ _ _, wf)). intros i oy [] _.
    apply returns_add_logic_wf. }
  intros ?. apply returns_floordiv; [lia|].
  eapply returns_bind;
    [apply (returns_for_loop (λ _ _, wf))|intros ?; by apply returns_ret].
  intros i ox index _.
  apply returns_floordiv; [lia|].
  apply (returns_for_loop (λ _ _, wf)). intros j oy idx _.
  eapply returns_bind;
    [apply returns_wire_gates_wf, wire_pairs_single_input|intros []; by apply returns_ret].
Qed.

Lemma create_decoder_small w : w < 2 → ∃ e, create_decoder w = Raise e.
Proof.
  intros Hw. unfold create_decoder. destruct (Z.ltb_spec w 0) as [|H0]; [by eexists|].
  assert (w = 0 ∨ w = 1) as [-> | ->] by lia;
    exists ZeroDivisionError; vm_compute; reflexivity.
Qed.

Lemma create_decoder_wf w : 2 ≤ w → ∃ c, create_decoder w = Ok c ∧ wf c.
Proof.
  intros Hw. unfold create_decoder, run_builder.
  destruct (Z.ltb_spec w 0) as [|_]; [lia|].
  destruct (create_decoder_body_wf w Hw Circuit_init wf_init) as ([] & c & -> & Hc).
  by exists c.
Qed.

Lemma create_lut_wf w m f : 2 ≤ w → ∃ c, create_lut w m f = Ok c ∧ wf c.
Proof.
  intros Hw. unfold create_lut, run_builder.
  destruct (create_decoder_wf w Hw) as (c0 & -> & Hc0).
  destruct (create_lut_body_wf w m f Hw c0 Hc0) as ([] & c & -> & Hc).
  by exists c.
Qed.



(** ** Queries *)

(** C9. Any sequence of [is_solid] and [get_block] calls, on any coordinates,
    returns and leaves the gates, the spatial index and the counter as they
    were. *)
Theorem queries_leave_circuit_unchanged (c : Circuit) (qs : list query) :
  for_loop qs (λ q _, ask q) tt c = (Ok tt, c).
Proof.
  induction qs as [|q qs IH]; simpl; [done|].
  unfold bind. destruct q as [p|p]; simpl; unfold bind.
  - by rewrite is_solid_run.
  - by rewrite get_block_run.
Qed.

(** C10. [is_solid] answers [True] exactly when [get_block] answers a slot;
    on an unoccupied coordinate [get_block] returns [None] and does not
    raise. *)
Theorem is_solid_get_block (c : Circuit) (p : Z * Z * Z) :
  ∃ b o, is_solid p c = (Ok b, c) ∧ get_block p c = (Ok o, c) ∧
         (b = true ↔ is_Some o) ∧ (b = false ↔ o = None).
Proof.
  exists (bool_decide (is_Some (slot_at c p))), (slot_at c p).
  rewrite is_solid_run, get_block_run.
  split; [done|]. split; [done|]. split; [apply bool_decide_eq_true|].
  rewrite bool_decide_eq_false. symmetry. apply eq_None_not_Some.
Qed.

(** ** Placing a gate on an occupied coordinate *)

(** C4 as stated fails: after two gates are placed on (0, 0, 0) both are in
    [logic_gates], at slots 0 and 1, and [get_block] still answers slot 0, the
    earlier gate. *)
Lemma add_logic_last_writer_counterexample :
  is_solid (0, 0, 0) collision_before = (Ok true, collision_before) ∧
  add_logic collision_second collision_before = (Ok tt, collision_after) ∧
  logic_gates collision_after = [collision_first; collision_second] ∧
  get_block (0, 0, 0) collision_after = (Ok (Some 0%nat), collision_after) ∧
  get_block (0, 0, 0) collision_after ≠ (Ok (Some 1%nat), collision_after).
Proof.
  split; [vm_compute; reflexivity|]. split; [vm_compute; reflexivity|].
  split; [vm_compute; reflexivity|]. split; [vm_compute; reflexivity|].
  vm_compute. intros [= ].
Qed.

(** C4, amended. When [add_logic] is called with a gate whose coordinate is
    already registered at slot [s], the call returns, the gate is appended to
    [logic_gates] (so both gates are present), the counter advances, and every
    coordinate lookup answers what it answered before: at the reused
    coordinate the slot [s] registered first (first writer wins). *)
Theorem add_logic_first_writer_wins (c : Circuit) (g : LogicGate) (s : nat) :
  get_block (position g) c = (Ok (Some s), c) →
  ∃ c', add_logic g c = (Ok tt, c') ∧
        logic_gates c' = logic_gates c ++ [g] ∧
        id_counter c' = S (id_counter c) ∧
        get_block (position g) c' = (Ok (Some s), c') ∧
        ∀ q, (get_block q c').1 = (get_block q c).1.
Proof.
  rewrite get_block_run. intros [= Hs].
  destruct (add_logic_run g c) as (c' & Hrun & Hg & Hn & Hslot).
  exists c'. repeat split; try done.
  - rewrite get_block_run, Hslot, decide_True by done. by rewrite Hs.
  - intros q. rewrite !get_block_run, Hslot. simpl. case_decide as Hq; [|done].
    subst q. by rewrite Hs.
Qed.

Lemma add_logic_first_writer_wins_witness :
  ∃ c', add_logic collision_second collision_before = (Ok tt, c') ∧
        logic_gates c' = logic_gates collision_before ++ [collision_second] ∧
        id_counter c' = S (id_counter collision_before) ∧
        get_block (position collision_second) c' = (Ok (Some 0%nat), c') ∧
        ∀ q, (get_block q c').1 = (get_block q collision_before).1.
Proof.
  apply (add_logic_first_writer_wins collision_before collision_second 0).
  reflexivity.
Defined.

(** ** The arity rule of [wire_gates] *)

(** C5 as stated fails: an empty input list against two outputs raises,
    although the input list is shorter than 2. *)
Lemma wire_gates_arity_counterexample :
  wire_gates [] [(0, 0, 0); (1, 0, 0)] Circuit_init = (Raise ArityMismatch, Circuit_init) ∧
  ¬ (2 ≤ length ([] : list (Z * Z * Z)))%nat.
Proof. split; [reflexivity|simpl; lia]. Qed.

(** C5, amended. On a well-formed circuit [wire_gates] raises the arity error
    exactly when the two lists differ in length and neither has length 1
    (an empty list against a list of two or more included), and leaves the
    circuit as it was; for every other pair of lengths it returns. *)
Theorem wire_gates_raises_iff (c : Circuit) (input_pos output_pos : list (Z * Z * Z)) :
  wf c →
  let unmatched := length input_pos ≠ length output_pos ∧
                   length input_pos ≠ 1%nat ∧ length output_pos ≠ 1%nat in
  (unmatched ↔ wire_gates input_pos output_pos c = (Raise ArityMismatch, c)) ∧
  (¬ unmatched ↔ ∃ c', wire_gates input_pos output_pos c = (Ok tt, c')).
Proof.
  intros Hwf unmatched. rewrite wire_gates_run by apply Hwf.
  assert (wire_pairs input_pos output_pos = None ↔ unmatched) as Hiff.
  { unfold wire_pairs, unmatched. case_decide as Hlen; [split; [done|tauto]|].
    destruct input_pos as [|i0 [|i1 input_pos]], output_pos as [|o0 [|o1 output_pos]];
      simpl in *; split; try done; try lia; intros (_ & ? & ?); done. }
  destruct (wire_pairs input_pos output_pos) as [ps|] eqn:Hps.
  - assert (¬ unmatched) as Hn by (rewrite <- Hiff; done).
    split; split; try done. by eexists.
  - assert unmatched as Hu by (by apply Hiff).
    split; split; try done. by intros (c' & ?).
Qed.

Lemma wire_gates_raises_iff_witness :
  let unmatched := length ([] : list (Z * Z * Z)) ≠ length [(0, 0, 0); (1, 0, 0)] ∧
                   length ([] : list (Z * Z * Z)) ≠ 1%nat ∧
                   length [(0, 0, 0); (1, 0, 0)] ≠ 1%nat in
  (unmatched ↔ wire_gates [] [(0, 0, 0); (1, 0, 0)] Circuit_init
               = (Raise ArityMismatch, Circuit_init)) ∧
  (¬ unmatched ↔ ∃ c', wire_gates [] [(0, 0, 0); (1, 0, 0)] Circuit_init = (Ok tt, c')).
Proof.
  apply (wire_gates_raises_iff Circuit_init [] [(0, 0, 0); (1, 0, 0)]).
  apply wf_init.
Defined.

(** ** Pairwise wiring *)

Lemma pair_targets_cons c p pr ps :
  pair_targets c p (pr :: ps) = pair_targets c p [pr] ++ pair_targets c p ps.
Proof.
  unfold pair_targets. simpl.
  by destruct (if bool_decide (pr.1 = p) then slot_at c pr.2 else None).
Qed.

Lemma pair_targets_wire_step c pr p ps :
  pair_targets (wire_step c pr) p ps = pair_targets c p ps.
Proof.
  unfold pair_targets. induction ps as [|q ps IH]; simpl; [done|].
  rewrite wire_step_slot_at.
  destruct (if bool_decide (q.1 = p) then slot_at c q.2 else None); [f_equal|]; exact IH.
Qed.

(** Under [wf] a coordinate determines its slot and the slot its coordinate. *)
Lemma slot_at_inj c p q s :
  wf c → slot_at c p = Some s → slot_at c q = Some s → p = q.
Proof.
  intros Hwf Hp Hq. pose proof (wf_indexed c Hwf p s Hp) as H1.
  pose proof (wf_indexed c Hwf q s Hq) as H2. rewrite H1 in H2. by injection H2.
Qed.

(** What one connection attempt does to the gate found at a coordinate. *)
Lemma wire_step_targets c pr p s g :
  wf c → slot_at c p = Some s → logic_gates c !! s = Some g →
  ∃ g', logic_gates (wire_step c pr) !! s = Some g' ∧
        position g' = position g ∧ mode g' = mode g ∧ color g' = color g ∧
        connections g' = connections g ++ pair_targets c p [pr].
Proof.
  intros Hwf Hp Hg. destruct pr as [a b]. unfold wire_step, pair_targets. simpl.
  destruct (slot_at c a) as [sa|] eqn:Ha.
  - destruct (slot_at c b) as [sb|] eqn:Hb.
    + destruct (logic_gates c !! sa) as [ga|] eqn:Hga.
      * simpl. destruct (decide (sa = s)) as [->|Hne].
        -- assert (a = p) as -> by (by apply (slot_at_inj c a p s)).
           rewrite Hg in Hga. injection Hga as <-.
           rewrite bool_decide_eq_true_2 by done. simpl.
           exists (connect_to g sb).
           rewrite list_lookup_insert_eq by (by eapply lookup_lt_Some). done.
        -- assert (a ≠ p) by (intros ->; rewrite Hp in Ha; by injection Ha).
           rewrite bool_decide_eq_false_2 by done. simpl. rewrite app_nil_r.
           exists g. by rewrite list_lookup_insert_ne by done.
      * assert (a ≠ p) by (intros ->; rewrite Hp in Ha; injection Ha as <-; congruence).
        rewrite bool_decide_eq_false_2 by done. simpl. rewrite app_nil_r. by exists g.
    + exists g. split; [done|]. case_bool_decide; simpl; by rewrite app_nil_r.
  - assert (a ≠ p) by (intros ->; congruence).
    rewrite bool_decide_eq_false_2 by done. simpl. rewrite app_nil_r. by exists g.
Qed.

(** What a run of connection attempts does to the gate found at a
    coordinate: its attributes stay, and its connections grow by the targets
    of the attempts made from that coordinate, in order. *)
Lemma foldl_wire_step_targets ps c p s g :
  wf c → slot_at c p = Some s → logic_gates c !! s = Some g →
  ∃ g', logic_gates (foldl wire_step c ps) !! s = Some g' ∧
        position g' = position g ∧ mode g' = mode g ∧ color g' = color g ∧
        connections g' = connections g ++ pair_targets c p ps.
Proof.
  revert c g. induction ps as [|pr ps IH]; intros c g Hwf Hp Hg.
  - exists g. unfold pair_targets. simpl. by rewrite app_nil_r.
  - cbn [foldl].
    destruct (wire_step_targets c pr p s g Hwf Hp Hg) as (g1 & Hg1 & Hpos & Hm & Hc & Hconn).
    destruct (IH (wire_step c pr) g1) as (g' & Hg' & Hpos' & Hm' & Hc' & Hconn').
    + exact (wf_foldl_wire_step [pr] c Hwf).
    + by rewrite wire_step_slot_at.
    + done.
    + exists g'. split; [done|]. rewrite Hpos', Hm', Hc', Hconn', Hconn.
      split; [done|]. split; [done|]. split; [done|].
      by rewrite pair_targets_wire_step, (pair_targets_cons c p pr ps), app_assoc.
Qed.

(** The decoder of width 2 is a circuit of the class. *)
Lemma wf_decoder_2 : wf decoder_2.
Proof.
  destruct (create_decoder_wf 2) as (c & Hc & Hwf); [lia|].
  unfold decoder_2. rewrite Hc. exact Hwf.
Qed.

(** C7. On a circuit of the class and lists of equal length, [wire_gates]
    returns, leaves the spatial index, the counter and the number of gates as
    they were, and has made one connection attempt per index [i], from
    [input[i]] to [output[i]], in order.  Observed at the gate found at any
    coordinate [p]: its position, mode and colour stay, and its connections
    are the old ones followed by the slots of [output[i]] for the indices [i]
    with [input[i] = p] and [output[i]] occupied, in the order of [i]; so that
    gate drives [t] afterwards exactly when it did before or some pair
    [(p, output[i])] has [output[i]] at slot [t].  A pair with an unoccupied
    endpoint adds nothing; when every pair has one the circuit is unchanged;
    and wiring from a coordinate that was never placed, as in
    [wire([(9,9,9)], [(0,0,0)])], returns with the circuit unchanged. *)
Theorem wire_gates_pairwise (c : Circuit) (input_pos output_pos : list (Z * Z * Z)) :
  wf c → length input_pos = length output_pos →
  ∃ c', wire_gates input_pos output_pos c = (Ok tt, c') ∧
    index_lut c' = index_lut c ∧ id_counter c' = id_counter c ∧
    length (logic_gates c') = length (logic_gates c) ∧
    (∀ p s g, (get_block p c).1 = Ok (Some s) → logic_gates c !! s = Some g →
       ∃ g', logic_gates c' !! s = Some g' ∧
             position g' = position g ∧ mode g' = mode g ∧ color g' = color g ∧
             connections g' =
               connections g ++ pair_targets c p (zip input_pos output_pos)) ∧
    (∀ p s t, (get_block p c).1 = Ok (Some s) →
       drives c' s t ↔
       drives c s t ∨
       ∃ i b, input_pos !! i = Some p ∧ output_pos !! i = Some b ∧
              (get_block b c).1 = Ok (Some t)) ∧
    ((∀ i a b, input_pos !! i = Some a → output_pos !! i = Some b →
               (is_solid a c).1 = Ok false ∨ (is_solid b c).1 = Ok false) →
     c' = c) ∧
    ((is_solid (9, 9, 9) c).1 = Ok false →
     wire_gates [(9, 9, 9)] [(0, 0, 0)] c = (Ok tt, c)).
Proof.
  intros Hwf Hlen. exists (foldl wire_step c (zip input_pos output_pos)).
  split; [|split; [|split; [|split; [|split; [|split; [|split]]]]]].
  - rewrite wire_gates_run by apply Hwf. unfold wire_pairs. by rewrite decide_True.
  - apply foldl_wire_step_index_lut.
  - apply foldl_wire_step_id_counter.
  - apply foldl_wire_step_length.
  - intros p s g. rewrite get_block_run. simpl. intros [= Hs] Hg.
    by apply foldl_wire_step_targets.
  - intros p s t. rewrite get_block_run. simpl. intros [= Hs].
    rewrite drives_foldl_wire_step by apply Hwf.
    setoid_rewrite get_block_run. simpl. split.
    + intros [H|([a b] & Hin & Ha & Hb)]; [by left|]. right. simpl in *.
      apply list_elem_of_lookup in Hin as [i Hi].
      apply lookup_zip_with_Some in Hi as (a' & b' & [= <- <-] & Hia & Hib).
      exists i, b. rewrite (slot_at_inj c p a s Hwf Hs Ha). by rewrite Hb.
    + intros [H|(i & b & Hia & Hib & [= Hb])]; [by left|]. right.
      exists (p, b). split; [|done]. apply list_elem_of_lookup. exists i.
      apply lookup_zip_with_Some. by exists p, b.
  - intros Hskip. apply foldl_wire_step_skip. intros [a b] Hin. simpl.
    apply list_elem_of_lookup in Hin as [i Hi].
    apply lookup_zip_with_Some in Hi as (a' & b' & [= <- <-] & Hia & Hib).
    specialize (Hskip i a b Hia Hib). rewrite !is_solid_run in Hskip. simpl in Hskip.
    destruct Hskip as [[= H]|[= H]]; apply bool_decide_eq_false in H;
      [left|right]; by apply eq_None_not_Some.
  - rewrite is_solid_run. simpl. intros [= H]. apply bool_decide_eq_false in H.
    rewrite wire_gates_run by apply Hwf. unfold wire_pairs. simpl.
    rewrite wire_step_skip; [done|]. left. by apply eq_None_not_Some.
Qed.

(** In the decoder of width 2 the decode gate at (3, 0, 0) is wired to the
    gates at (0, 0, 0) and (4, 1, 0), slots 0 and 7, and the attempt from
    the coordinate (9, 9, 9), which is not occupied, is skipped. *)
Lemma wire_gates_pairwise_witness :
  pair_targets decoder_2 (3, 0, 0)
    (zip [(3, 0, 0); (9, 9, 9); (3, 0, 0)] [(0, 0, 0); (0, 0, 0); (4, 1, 0)])
  = [0; 7]%nat ∧
  ∃ c', wire_gates [(3, 0, 0); (9, 9, 9); (3, 0, 0)] [(0, 0, 0); (0, 0, 0); (4, 1, 0)]
          decoder_2 = (Ok tt, c') ∧
    index_lut c' = index_lut decoder_2 ∧ id_counter c' = id_counter decoder_2 ∧
    length (logic_gates c') = length (logic_gates decoder_2) ∧
    (∀ p s g, (get_block p decoder_2).1 = Ok (Some s) →
       logic_gates decoder_2 !! s = Some g →
       ∃ g', logic_gates c' !! s = Some g' ∧
             position g' = position g ∧ mode g' = mode g ∧ color g' = color g ∧
             connections g' =
               connections g ++
               pair_targets decoder_2 p
                 (zip [(3, 0, 0); (9, 9, 9); (3, 0, 0)]
                      [(0, 0, 0); (0, 0, 0); (4, 1, 0)])) ∧
    (∀ p s t, (get_block p decoder_2).1 = Ok (Some s) →
       drives c' s t ↔
       drives decoder_2 s t ∨
       ∃ i b, [(3, 0, 0); (9, 9, 9); (3, 0, 0)] !! i = Some p ∧
              [(0, 0, 0); (0, 0, 0); (4, 1, 0)] !! i = Some b ∧
              (get_block b decoder_2).1 = Ok (Some t)) ∧
    ((∀ i a b, [(3, 0, 0); (9, 9, 9); (3, 0, 0)] !! i = Some a →
               [(0, 0, 0); (0, 0, 0); (4, 1, 0)] !! i = Some b →
               (is_solid a decoder_2).1 = Ok false ∨
               (is_solid b decoder_2).1 = Ok false) →
     c' = decoder_2) ∧
    ((is_solid (9, 9, 9) decoder_2).1 = Ok false →
     wire_gates [(9, 9, 9)] [(0, 0, 0)] decoder_2 = (Ok tt, decoder_2)).
Proof.
  split; [vm_compute; reflexivity|].
  exact (wire_gates_pairwise decoder_2 [(3, 0, 0); (9, 9, 9); (3, 0, 0)]
           [(0, 0, 0); (0, 0, 0); (4, 1, 0)] wf_decoder_2 eq_refl).
Defined.

(** ** Bit strings *)

Lemma bin_pos_app p acc : bin_pos p acc = bin_pos p [] ++ acc.
Proof.
  revert acc. induction p as [p IH|p IH|]; intros acc; simpl; [| |done].
  - rewrite (IH ["1"%char]), (IH ("1"%char :: acc)). by rewrite <- app_assoc.
  - rewrite (IH ["0"%char]), (IH ("0"%char :: acc)). by rewrite <- app_assoc.
Qed.

Lemma bin_pos_length p : length (bin_pos p []) = Pos.size_nat p.
Proof.
  induction p as [p IH|p IH|]; simpl; [| |done];
    rewrite bin_pos_app, length_app, IH; simpl; lia.
Qed.

Lemma bin_pos_bits p : Forall is_bit (bin_pos p []).
Proof.
  induction p as [p IH|p IH|]; simpl.
  - rewrite bin_pos_app. apply Forall_app. split; [done|].
    apply Forall_cons; split; [by right|apply Forall_nil_2].
  - rewrite bin_pos_app. apply Forall_app. split; [done|].
    apply Forall_cons; split; [by left|apply Forall_nil_2].
  - apply Forall_cons; split; [by right|apply Forall_nil_2].
Qed.

Lemma bits_value_app s1 s2 :
  bits_value (s1 ++ s2) = foldl (λ acc char, 2 * acc + int_digit char) (bits_value s1) s2.
Proof. unfold bits_value. by rewrite foldl_app. Qed.

Lemma int_digit_0 : int_digit "0" = 0.
Proof. reflexivity. Qed.

Lemma int_digit_1 : int_digit "1" = 1.
Proof. reflexivity. Qed.

Lemma bin_pos_value p : bits_value (bin_pos p []) = Z.pos p.
Proof.
  induction p as [p IH|p IH|]; simpl; [| |done];
    rewrite bin_pos_app, bits_value_app, IH; cbn [foldl];
    rewrite ?int_digit_0, ?int_digit_1; lia.
Qed.

Lemma bits_value_zeros k s : bits_value (replicate k "0"%char ++ s) = bits_value s.
Proof.
  induction k as [|k IH]; simpl; [done|]. unfold bits_value in *. simpl. apply IH.
Qed.

Lemma bin_tail_length_pos p (m : Z) :
  0 ≤ m → (Z.pos p < 2 ^ m ↔ len (bin_tail (Z.pos p)) ≤ m).
Proof.
  intros Hm. unfold len. simpl. rewrite bin_pos_length.
  rewrite <- (Z2Nat.id m) at 1 by done. rewrite Zpower2_Psize. lia.
Qed.

Lemma bin_tail_bits n : 0 ≤ n → Forall is_bit (bin_tail n).
Proof.
  destruct n as [|p|p]; [| |lia]; intros _; simpl.
  - apply Forall_cons; split; [by left|apply Forall_nil_2].
  - apply bin_pos_bits.
Qed.

Lemma bin_tail_value n : 0 ≤ n → bits_value (bin_tail n) = n.
Proof.
  destruct n as [|p|p]; [done| |lia]. intros _. apply bin_pos_value.
Qed.

Lemma zero_pad_bits k s : Forall is_bit s → Forall is_bit (zero_pad k s).
Proof.
  intros Hs. apply Forall_app. split; [|done].
  apply Forall_replicate. by left.
Qed.

Lemma zero_pad_length k s : len (zero_pad k s) = Z.max k 0 + len s.
Proof. unfold zero_pad, len. rewrite length_app, length_replicate. lia. Qed.

(** ** The default bit function *)

(** C6 as stated fails: the square of 2 needs three bits and
    [square_func 2 1] returns all three, not a string of length 1. *)
Lemma square_func_length_counterexample :
  square_func 2 1 = ["1"; "0"; "0"]%char ∧ len (square_func 2 1) ≠ 1.
Proof. split; [reflexivity|by vm_compute]. Qed.

(** C6, amended. For every [index] and every width [m >= 1], [square_func]
    returns a string of binary digits denoting [index] squared; when the
    square fits in [m] bits the string is zero-padded on the left to length
    exactly [m]; when the square needs more than [m] bits nothing is
    truncated: the string is the whole binary representation and is longer
    than [m]. *)
Theorem square_func_padded_not_truncated (index m : Z) :
  1 ≤ m →
  Forall is_bit (square_func index m) ∧
  bits_value (square_func index m) = index ^ 2 ∧
  (index ^ 2 < 2 ^ m → len (square_func index m) = m) ∧
  (2 ^ m ≤ index ^ 2 →
   square_func index m = bin_tail (index ^ 2) ∧ m < len (square_func index m)).
Proof.
  intros Hm. unfold square_func.
  assert (0 ≤ index ^ 2) as Hn by (apply Z.pow_even_nonneg; by exists 1).
  set (n := index ^ 2) in *. clearbody n.
  split; [by apply zero_pad_bits, bin_tail_bits|].
  split; [unfold zero_pad; by rewrite bits_value_zeros, bin_tail_value|].
  destruct n as [|p|p]; [| |lia].
  - split; [intros _; rewrite zero_pad_length; unfold len; simpl; lia|].
    intros H. assert (0 < 2 ^ m) by (apply Z.pow_pos_nonneg; lia). lia.
  - pose proof (bin_tail_length_pos p m) as Hlen. split.
    + intros H. rewrite zero_pad_length. lia.
    + intros H. unfold zero_pad.
      replace (Z.to_nat (m - len (bin_tail (Z.pos p)))) with 0%nat by lia.
      simpl. split; [done|]. fold (bin_tail (Z.pos p)). lia.
Qed.

Lemma square_func_padded_not_truncated_witness :
  Forall is_bit (square_func 3 8) ∧
  bits_value (square_func 3 8) = 3 ^ 2 ∧
  (3 ^ 2 < 2 ^ 8 → len (square_func 3 8) = 8) ∧
  (2 ^ 8 ≤ 3 ^ 2 →
   square_func 3 8 = bin_tail (3 ^ 2) ∧ 8 < len (square_func 3 8)).
Proof. apply (square_func_padded_not_truncated 3 8). lia. Defined.

(** ** The layout of the decoder *)

Lemma wire_pairs_fan_out_eq i0 output_pos :
  wire_pairs [i0] output_pos = Some (pair i0 <$> output_pos).
Proof.
  unfold wire_pairs. case_decide as H; [|done].
  by destruct output_pos as [|o0 [|o1 output_pos]].
Qed.

Lemma wire_pairs_fan_in_eq input_pos o0 :
  wire_pairs input_pos [o0] = Some ((λ i, (i, o0)) <$> input_pos).
Proof.
  unfold wire_pairs. case_decide as H.
  - by destruct input_pos as [|i0 [|i1 input_pos]].
  - by destruct input_pos as [|i0 [|i1 input_pos]].
Qed.

(** Placing a gate without connections on a free coordinate. *)
Lemma add_logic_fresh g c :
  id_counter c = length (logic_gates c) →
  slot_at c (position g) = None →
  connections g = [] →
  ∃ c', add_logic g c = (Ok tt, c') ∧
        logic_gates c' = logic_gates c ++ [g] ∧
        id_counter c' = length (logic_gates c') ∧
        (∀ q, slot_at c' q = if decide (q = position g)
                             then Some (length (logic_gates c)) else slot_at c q) ∧
        (∀ s t, drives c' s t ↔ drives c s t).
Proof.
  intros Hcnt Hfree Hconn.
  destruct (add_logic_run g c) as (c' & Hrun & Hg & Hn & Hslot).
  exists c'. split; [done|]. split; [done|]. split; [|split].
  - rewrite Hn, Hg, length_app, Hcnt. simpl. lia.
  - intros q. rewrite Hslot, Hfree, Hcnt. done.
  - intros s t. rewrite (drives_app_gate c c' g) by done. rewrite Hconn.
    split; [|by left]. intros [H|[_ H]]; [done|]. by apply elem_of_nil in H.
Qed.

Lemma slots_inv_slots_in_range w n a b c :
  slots_inv w n a b c → 0 ≤ n → 0 ≤ a → 0 ≤ b → 0 ≤ grid_rows w →
  3 * w ≤ n ∨ (a = 0 ∧ b = 0) →
  slots_in_range c.
Proof.
  intros [Hl Hc Hs] H0n Ha Hb Hrows Hn p s. rewrite Hs, Hl. destruct p as [[x y] z].
  unfold decoder_slot_spec. simpl. repeat case_bool_decide; [| |done].
  - intros [= <-]. unfold placed_line in *.
    assert (0 ≤ a * grid_rows w) by (apply Z.mul_nonneg_nonneg; lia). lia.
  - intros [= <-]. unfold placed_decode in *.
    set (u := grid_split w + 2 - x) in *.
    assert (u * grid_rows w + y < a * grid_rows w + b) by nia.
    assert (0 ≤ u * grid_rows w) by (apply Z.mul_nonneg_nonneg; lia). lia.
Qed.

Lemma add_line_gate w n x y md col c :
  slots_inv w n 0 0 c → n = 3 * y + x → 0 ≤ x ≤ 2 → 0 ≤ y →
  ∃ c', add_logic (LogicGate_init (x, y, 0) md col) c = (Ok tt, c') ∧
        slots_inv w (n + 1) 0 0 c' ∧ (∀ s t, drives c' s t ↔ drives c s t).
Proof.
  intros [Hl Hc Hs] Hn Hx Hy.
  destruct (add_logic_fresh (LogicGate_init (x, y, 0) md col) c)
    as (c' & Hrun & Hg & Hcnt & Hslot & Hdr); [done| |done|].
  { rewrite Hs. split_slot_cases. }
  exists c'. split; [done|]. split; [|done]. split; [|done|].
  - rewrite Hg, length_app, Hl. simpl. lia.
  - intros [[qx qy] qz]. rewrite Hslot, Hs, Hl. split_slot_cases.
Qed.

Lemma add_decode_gate w a b md col c :
  slots_inv w (3 * w) a b c → 0 ≤ w →
  0 ≤ a < grid_split w → 0 ≤ b < grid_rows w →
  ∃ c', add_logic (LogicGate_init (grid_split w + 2 - a, b, 0) md col) c = (Ok tt, c') ∧
        slots_inv w (3 * w) a (b + 1) c' ∧ (∀ s t, drives c' s t ↔ drives c s t).
Proof.
  intros [Hl Hc Hs] Hw Ha Hb.
  assert (0 ≤ a * grid_rows w) by (apply Z.mul_nonneg_nonneg; lia).
  destruct (add_logic_fresh (LogicGate_init (grid_split w + 2 - a, b, 0) md col) c)
    as (c' & Hrun & Hg & Hcnt & Hslot & Hdr); [done| |done|].
  { rewrite Hs. split_slot_cases. }
  exists c'. split; [done|]. split; [|done]. split; [|done|].
  - rewrite Hg, length_app, Hl. simpl. lia.
  - intros [[qx qy] qz]. rewrite Hslot, Hs, Hl. split_slot_cases.
Qed.

Lemma slots_inv_foldl_wire_step w n a b ps c :
  slots_inv w n a b c → slots_inv w n a b (foldl wire_step c ps).
Proof.
  intros [Hl Hc Hs]. split.
  - by rewrite foldl_wire_step_length.
  - by rewrite foldl_wire_step_id_counter, foldl_wire_step_length.
  - intros p. by rewrite foldl_wire_step_slot_at.
Qed.

Lemma slots_inv_ext w n a b a' b' c :
  slots_inv w n a b c →
  a * grid_rows w + b = a' * grid_rows w + b' →
  (∀ u y, placed_decode (grid_split w) (grid_rows w) a b u y ↔
          placed_decode (grid_split w) (grid_rows w) a' b' u y) →
  slots_inv w n a' b' c.
Proof.
  intros [Hl Hc Hs] Heq Hiff. split; [|done|].
  - rewrite Hl. f_equal. lia.
  - intros p. rewrite Hs. unfold decoder_slot_spec.
    case_bool_decide; [done|]. apply option_eq. intros s.
    by rewrite !(bool_decide_ext _ _ (and_iff_compat_l _ (Hiff _ _))).
Qed.

Lemma drives_inv_ext w j a b a' b' c :
  drives_inv w j a b c →
  (∀ u y, placed_decode (grid_split w) (grid_rows w) a b u y ↔
          placed_decode (grid_split w) (grid_rows w) a' b' u y) →
  drives_inv w j a' b' c.
Proof.
  intros Hd Hiff s t. rewrite (Hd s t). unfold decoder_drives_spec.
  by setoid_rewrite Hiff.
Qed.

Lemma decoder_number_length w index :
  1 ≤ w → 0 ≤ index < 2 ^ w → len (decoder_number w index) = w.
Proof.
  intros Hw Hi. unfold decoder_number. rewrite zero_pad_length.
  destruct index as [|p|p]; [unfold len; simpl; lia| |lia].
  pose proof (bin_tail_length_pos p w). lia.
Qed.

Lemma decoder_number_bits w index : 0 ≤ index → Forall is_bit (decoder_number w index).
Proof. intros Hi. by apply zero_pad_bits, bin_tail_bits. Qed.

Lemma decoder_number_lookup w index (off : nat) char :
  1 ≤ w → 0 ≤ index < 2 ^ w →
  decoder_number w index !! off = Some char →
  Z.of_nat off < w ∧ (int_digit char = 0 ∨ int_digit char = 1).
Proof.
  intros Hw Hi Hoff. split.
  - apply lookup_lt_Some in Hoff. pose proof (decoder_number_length w index Hw Hi).
    unfold len in *. lia.
  - pose proof (decoder_number_bits w index (proj1 Hi)) as Hb.
    rewrite Forall_lookup in Hb. destruct (Hb off char Hoff) as [-> | ->]; [by left|by right].
Qed.

Lemma enumerate_lookup {A} (start : Z) (l : list A) (i : nat) :
  enumerate start l !! i = (λ x, (start + Z.of_nat i, x)) <$> l !! i.
Proof. unfold enumerate. by rewrite list_lookup_imap. Qed.

Lemma enumerate_cons {A} (start : Z) (x : A) (l : list A) :
  enumerate start (x :: l) = (start, x) :: enumerate (start + 1) l.
Proof.
  unfold enumerate. simpl. f_equal; [f_equal; lia|].
  apply imap_ext. intros i y _. simpl. f_equal. lia.
Qed.

Lemma decoder_inputs_lookup w number (off : nat) :
  decoder_inputs w number !! off =
  (λ char, (1 + int_digit char, w - Z.of_nat off - 1, 0)) <$> number !! off.
Proof.
  unfold decoder_inputs. rewrite list_lookup_fmap, enumerate_lookup.
  by destruct (number !! off).
Qed.

Lemma wire_line w j c :
  slots_inv w (3 * j + 3) 0 0 c → drives_inv w j 0 0 c → 0 ≤ j → 0 ≤ grid_rows w →
  ∃ c', wire_gates [(0, j, 0)] [(1, j, 0); (2, j, 0)] c = (Ok tt, c') ∧
        slots_inv w (3 * (j + 1)) 0 0 c' ∧ drives_inv w (j + 1) 0 0 c'.
Proof.
  intros Hsi Hdi Hj Hrows.
  assert (slots_in_range c) as Hr
    by (apply (slots_inv_slots_in_range w (3 * j + 3) 0 0); [done|lia..|by right]).
  rewrite wire_gates_run, wire_pairs_fan_out_eq by done.
  eexists. split; [done|]. split.
  { replace (3 * (j + 1)) with (3 * j + 3) by lia. by apply slots_inv_foldl_wire_step. }
  intros s t. rewrite drives_foldl_wire_step by done. rewrite (Hdi s t).
  unfold decoder_drives_spec. destruct Hsi as [_ _ Hs].
  assert (slot_at c (0, j, 0) = Some (Z.to_nat (3 * j))) as H0
    by (rewrite Hs; split_slot_cases).
  assert (slot_at c (1, j, 0) = Some (Z.to_nat (3 * j + 1))) as H1
    by (rewrite Hs; split_slot_cases).
  assert (slot_at c (2, j, 0) = Some (Z.to_nat (3 * j + 2))) as H2
    by (rewrite Hs; split_slot_cases).
  split.
  - intros [[(y & Hy & -> & Ht)|H]|(p & Hp & Hps & Hpt)].
    + left. exists y. split; [lia|done].
    + by right.
    + left. exists j. split; [lia|].
      simpl in Hp. rewrite !elem_of_cons in Hp.
      destruct Hp as [-> | [-> | Hp]]; [| |by apply elem_of_nil in Hp]; simpl in *.
      * rewrite H0 in Hps. rewrite H1 in Hpt. injection Hps as <-. injection Hpt as <-.
        split; [done|by left].
      * rewrite H0 in Hps. rewrite H2 in Hpt. injection Hps as <-. injection Hpt as <-.
        split; [done|by right].
  - intros [(y & Hy & -> & Ht)|H]; [|by left; right].
    destruct (decide (y = j)) as [->|Hne].
    + right. destruct Ht as [-> | ->].
      * exists ((0, j, 0), (1, j, 0)). split; [left|done].
      * exists ((0, j, 0), (2, j, 0)). split; [right; left|done].
    + left. left. exists y. split; [lia|done].
Qed.

Lemma grid_index_bounds w a b :
  2 ≤ w → 0 ≤ a < grid_split w → 0 ≤ b < grid_rows w →
  0 ≤ a * grid_rows w + b < 2 ^ w.
Proof.
  intros Hw Ha Hb. pose proof (grid_rows_bounds w Hw) as [Hr Hsr].
  assert (0 ≤ a * grid_rows w) by (apply Z.mul_nonneg_nonneg; lia).
  assert ((a + 1) * grid_rows w ≤ grid_split w * grid_rows w)
    by (apply Z.mul_le_mono_nonneg_r; lia).
  lia.
Qed.

Lemma wire_decode w a b c :
  2 ≤ w → slots_inv w (3 * w) a (b + 1) c → drives_inv w w a b c →
  0 ≤ a < grid_split w → 0 ≤ b < grid_rows w →
  ∃ c', wire_gates (decoder_inputs w (decoder_number w (a * grid_rows w + b)))
                   [(grid_split w + 2 - a, b, 0)] c = (Ok tt, c') ∧
        slots_inv w (3 * w) a (b + 1) c' ∧ drives_inv w w a (b + 1) c'.
Proof.
  intros Hw Hsi Hdi Ha Hb.
  pose proof (grid_index_bounds w a b Hw Ha Hb) as Hidx.
  assert (slots_in_range c) as Hr
    by (apply (slots_inv_slots_in_range w (3 * w) a (b + 1)); [done|lia..|by left]).
  rewrite wire_gates_run, wire_pairs_fan_in_eq by done.
  eexists. split; [done|]. split; [by apply slots_inv_foldl_wire_step|].
  intros s t. rewrite drives_foldl_wire_step by done. rewrite (Hdi s t).
  unfold decoder_drives_spec. destruct Hsi as [_ _ Hs].
  assert (slot_at c (grid_split w + 2 - a, b, 0)
          = Some (Z.to_nat (3 * w + a * grid_rows w + b))) as Ho
    by (rewrite Hs; split_slot_cases).
  assert (∀ (off : nat) char,
    decoder_number w (a * grid_rows w + b) !! off = Some char →
    slot_at c (1 + int_digit char, w - Z.of_nat off - 1, 0)
    = Some (Z.to_nat (3 * (w - Z.of_nat off - 1) + 1 + int_digit char))) as Hi.
  { intros off char Hoff.
    apply decoder_number_lookup in Hoff as [Hlt Hd]; [|lia|done].
    rewrite Hs. split_slot_cases. }
  split.
  - intros [[H|(u & y & off & char & Hpl & Hoff & -> & ->)]|(p & Hp & Hps & Hpt)].
    + by left.
    + right. exists u, y, off, char. split; [|done].
      unfold placed_decode in *. lia.
    + right. apply list_elem_of_fmap in Hp as (i & -> & Hin). simpl in *.
      apply list_elem_of_lookup in Hin as [off Hoff].
      rewrite decoder_inputs_lookup in Hoff.
      destruct (decoder_number w (a * grid_rows w + b) !! off) as [char|] eqn:Hch;
        [|done].
      injection Hoff as <-. rewrite (Hi off char Hch) in Hps. rewrite Ho in Hpt.
      injection Hps as <-. injection Hpt as <-.
      exists a, b, off, char. split; [unfold placed_decode; lia|].
      split; [done|]. split; [done|]. f_equal.
  - intros [H|(u & y & off & char & Hpl & Hoff & -> & ->)]; [by left; left|].
    destruct (decide (u = a ∧ y = b)) as [[-> ->]|Hne].
    + right. exists ((1 + int_digit char, w - Z.of_nat off - 1, 0),
                     (grid_split w + 2 - a, b, 0)).
      split; [|split; [by apply Hi|done]].
      apply list_elem_of_fmap. eexists. split; [done|].
      apply list_elem_of_lookup. exists off. rewrite decoder_inputs_lookup.
      by rewrite Hoff.
    + left. right. exists u, y, off, char. split; [|done].
      unfold placed_decode in *. lia.
Qed.

Lemma returns_pre {A} (P P' : Circuit → Prop) (m : M A) Q :
  (∀ c, P c → P' c) → returns P' m Q → returns P m Q.
Proof. intros HP Hm c Hc. apply Hm, HP, Hc. Qed.

Lemma slots_inv_init w : slots_inv w 0 0 0 Circuit_init.
Proof.
  split; [done|done|]. intros [[x y] z]. rewrite slot_at_init. split_slot_cases.
Qed.

Lemma drives_inv_init w : drives_inv w 0 0 0 Circuit_init.
Proof.
  intros s t. split.
  - intros (g & Hg & _). by destruct s.
  - intros [(y & Hy & _)|(u & y & off & char & Hpl & _)];
      [|unfold placed_decode in Hpl]; lia.
Qed.

(** [create_decoder_body] returns, for a width from 2 on, with the layout and
    the wires of the full grid. *)
Lemma create_decoder_body_layout w :
  2 ≤ w →
  returns (λ c, c = Circuit_init) (create_decoder_body w)
    (λ _ c, slots_inv w (3 * w) (grid_split w) 0 c ∧ drives_inv w w (grid_split w) 0 c).
Proof.
  intros Hw. unfold create_decoder_body.
  pose proof (grid_round_bounds w Hw) as Hr.
  pose proof (grid_split_bounds w Hw) as Hs.
  pose proof (grid_rows_bounds w Hw) as [Hrows Hsr].
  eapply returns_bind.
  { eapply returns_pre; [|apply (returns_for_loop
      (λ j _ c, slots_inv w (3 * Z.of_nat j) 0 0 c ∧ drives_inv w (Z.of_nat j) 0 0 c))].
    { intros c ->. split; [apply slots_inv_init|apply drives_inv_init]. }
    intros i oy [] Hoy. apply py_range_up_lookup in Hoy as [-> Hlt].
    rewrite Z.add_0_l in *.
    intros c [Hsi Hdi]. unfold bind.
    destruct (add_line_gate w (3 * Z.of_nat i) 0 (Z.of_nat i) "and" "eeee22" c)
      as (c1 & -> & Hsi1 & Hd1); [done|lia..|].
    destruct (add_line_gate w (3 * Z.of_nat i + 1) 1 (Z.of_nat i) "and" "222222" c1)
      as (c2 & -> & Hsi2 & Hd2); [done|lia..|].
    destruct (add_line_gate w (3 * Z.of_nat i + 1 + 1) 2 (Z.of_nat i) "nor" "222222" c2)
      as (c3 & -> & Hsi3 & Hd3); [done|lia..|].
    destruct (wire_line w (Z.of_nat i) c3) as (c4 & -> & Hsi4 & Hd4).
    - by replace (3 * Z.of_nat i + 3) with (3 * Z.of_nat i + 1 + 1 + 1) by lia.
    - intros s t. by rewrite Hd3, Hd2, Hd1.
    - lia.
    - lia.
    - exists tt, c4. split; [done|].
      by replace (Z.of_nat (S i)) with (Z.of_nat i + 1) by lia. }
  intros []. rewrite py_range_up_length.
  replace (Z.of_nat (Z.to_nat (w - 0))) with w by lia.
  fold (grid_round w). apply returns_floordiv; [lia|]. fold (grid_split w).
  eapply returns_bind.
  { eapply returns_pre; [|apply (returns_for_loop
      (λ a index c, index = Z.of_nat a * grid_rows w ∧
                    slots_inv w (3 * w) (Z.of_nat a) 0 c ∧
                    drives_inv w w (Z.of_nat a) 0 c))].
    { intros c [Hsi Hdi]. split; [lia|]. by split. }
    intros a ox index Hox. apply py_range_down_lookup in Hox as [-> Hlt].
    apply returns_floordiv; [lia|]. fold (grid_rows w).
    intros c (-> & Hsi & Hdi).
    destruct (returns_for_loop
      (λ b index c, index = Z.of_nat a * grid_rows w + Z.of_nat b ∧
                    slots_inv w (3 * w) (Z.of_nat a) (Z.of_nat b) c ∧
                    drives_inv w w (Z.of_nat a) (Z.of_nat b) c)
      (py_range 0 (grid_rows w) 1)
      (λ oy index,
         add_logic (LogicGate_init (grid_split w + 2 - Z.of_nat a, oy, 0) "and" "222222") ;;;
         wire_gates (decoder_inputs w (decoder_number w index))
           [(grid_split w + 2 - Z.of_nat a, oy, 0)] ;;;
         ret (index + 1))
      (Z.of_nat a * grid_rows w)) with c as (index' & c' & Hrun & -> & Hsi' & Hdi').
    - intros b oy index Hoy. apply py_range_up_lookup in Hoy as [-> Hblt].
      rewrite Z.add_0_l in *. intros c0 (-> & Hsi0 & Hdi0). unfold bind.
      destruct (add_decode_gate w (Z.of_nat a) (Z.of_nat b) "and" "222222" c0)
        as (c1 & -> & Hsi1 & Hd1); [done|lia..|].
      destruct (wire_decode w (Z.of_nat a) (Z.of_nat b) c1)
        as (c2 & -> & Hsi2 & Hd2); [done|done| |lia|lia|].
      { intros s t. by rewrite Hd1. }
      eexists _, c2. split; [done|].
      replace (Z.of_nat (S b)) with (Z.of_nat b + 1) by lia.
      split; [unfold ret; lia|done].
    - split; [lia|]. exact (conj Hsi Hdi).
    - exists (Z.of_nat a * grid_rows w + Z.of_nat (length (py_range 0 (grid_rows w) 1))), c'.
      split; [done|]. rewrite py_range_up_length in *.
      replace (Z.of_nat (Z.to_nat (grid_rows w - 0))) with (grid_rows w) in * by lia.
      assert (∀ u y, placed_decode (grid_split w) (grid_rows w) (Z.of_nat a) (grid_rows w) u y ↔
                     placed_decode (grid_split w) (grid_rows w) (Z.of_nat (S a)) 0 u y) as Hiff
        by (intros u y; unfold placed_decode; lia).
      split; [lia|]. split.
      + eapply slots_inv_ext; [done|lia|done].
      + eapply drives_inv_ext; done. }
  intros index. apply returns_ret. intros c (_ & Hsi & Hdi).
  rewrite py_range_down_length in *.
  replace (Z.of_nat (Z.to_nat (grid_split w + 2 - 2))) with (grid_split w) in * by lia.
  done.
Qed.

Lemma create_decoder_layout w :
  2 ≤ w →
  ∃ c, create_decoder w = Ok c ∧
       slots_inv w (3 * w) (grid_split w) 0 c ∧ drives_inv w w (grid_split w) 0 c.
Proof.
  intros Hw. unfold create_decoder, run_builder.
  destruct (Z.ltb_spec w 0) as [|_]; [lia|].
  destruct (create_decoder_body_layout w Hw Circuit_init eq_refl) as ([] & c & -> & Hc).
  by exists c.
Qed.

(** The number of gates of a decoder: three per bit and a full grid of
    [split] columns of [n // split] decode gates. *)
Lemma create_decoder_gate_count w :
  2 ≤ w →
  ∃ c, create_decoder w = Ok c ∧
       len (logic_gates c) = 3 * w + grid_split w * grid_rows w.
Proof.
  intros Hw. destruct (create_decoder_layout w Hw) as (c & Hc & [Hl _ _] & _).
  exists c. split; [done|]. unfold len. rewrite Hl.
  pose proof (grid_split_bounds w Hw). pose proof (grid_rows_bounds w Hw).
  assert (0 ≤ grid_split w * grid_rows w) by (apply Z.mul_nonneg_nonneg; lia). lia.
Qed.

(** ** The bits behind the digits *)

Lemma bin_pos_lookup p (k : nat) :
  (k < Pos.size_nat p)%nat →
  bin_pos p [] !! (Pos.size_nat p - 1 - k)%nat
  = Some (if Z.testbit (Z.pos p) (Z.of_nat k) then "1"%char else "0"%char).
Proof.
  revert k. induction p as [p IH|p IH|]; intros k Hk; simpl in Hk |- *.
  - rewrite bin_pos_app. destruct k as [|k].
    + rewrite lookup_app_r by (rewrite bin_pos_length; lia).
      rewrite bin_pos_length. by replace (Pos.size_nat p - 0 - 0 - Pos.size_nat p)%nat
        with 0%nat by lia.
    + rewrite lookup_app_l by (rewrite bin_pos_length; lia).
      replace (Pos.size_nat p - 0 - S k)%nat with (Pos.size_nat p - 1 - k)%nat by lia.
      rewrite IH by lia. rewrite Pos2Z.inj_xI, Nat2Z.inj_succ.
      by rewrite Z.testbit_odd_succ by lia.
  - rewrite bin_pos_app. destruct k as [|k].
    + rewrite lookup_app_r by (rewrite bin_pos_length; lia).
      rewrite bin_pos_length. by replace (Pos.size_nat p - 0 - 0 - Pos.size_nat p)%nat
        with 0%nat by lia.
    + rewrite lookup_app_l by (rewrite bin_pos_length; lia).
      replace (Pos.size_nat p - 0 - S k)%nat with (Pos.size_nat p - 1 - k)%nat by lia.
      rewrite IH by lia. rewrite Pos2Z.inj_xO, Nat2Z.inj_succ.
      by rewrite Z.testbit_even_succ by lia.
  - by replace k with 0%nat by lia.
Qed.

Lemma testbit_above_size p n :
  Z.of_nat (Pos.size_nat p) ≤ n → Z.testbit (Z.pos p) n = false.
Proof.
  intros Hn. apply Z.bits_above_log2; [lia|].
  assert (Z.pos p < 2 ^ Z.of_nat (Pos.size_nat p)) as Hlt by (by apply Zpower2_Psize).
  apply Z.log2_lt_pow2 in Hlt; lia.
Qed.

Lemma decoder_number_testbit w index (off : nat) :
  1 ≤ w → 0 ≤ index < 2 ^ w → Z.of_nat off < w →
  decoder_number w index !! off
  = Some (if Z.testbit index (w - 1 - Z.of_nat off) then "1"%char else "0"%char).
Proof.
  intros Hw Hi Hoff. unfold decoder_number, zero_pad.
  destruct index as [|p|p]; [| |lia].
  - rewrite Z.bits_0. unfold len. simpl.
    destruct (decide (off < Z.to_nat (w - 1))%nat) as [Hlt|Hge].
    + rewrite lookup_app_l by (rewrite length_replicate; lia).
      by apply lookup_replicate_2.
    + rewrite lookup_app_r by (rewrite length_replicate; lia).
      rewrite length_replicate.
      match goal with |- _ !! ?n = _ => replace n with 0%nat by lia end. done.
  - pose proof (bin_tail_length_pos p w) as Hlen. unfold len in *. simpl in *.
    rewrite bin_pos_length in *.
    assert (Z.of_nat (Pos.size_nat p) ≤ w) as Hsz by lia.
    destruct (decide (off < Z.to_nat (w - Z.of_nat (Pos.size_nat p)))%nat) as [Hlt|Hge].
    + rewrite lookup_app_l by (rewrite length_replicate; lia).
      rewrite testbit_above_size by lia. by apply lookup_replicate_2.
    + rewrite lookup_app_r by (rewrite length_replicate; lia).
      rewrite length_replicate.
      replace (off - Z.to_nat (w - Z.of_nat (Pos.size_nat p)))%nat
        with (Pos.size_nat p - 1 - Z.to_nat (w - 1 - Z.of_nat off))%nat by lia.
      rewrite bin_pos_lookup by lia. by rewrite Z2Nat.id by lia.
Qed.

(** ** The inputs of a decode gate *)

(** C3 as stated fails: for width 2 and address 0 the first digit is 0, and
    the decode gate placed for address 0, at (4, 0, 0), is wired from the
    true line (1, 1, 0), not from the complement line (2, 1, 0). *)
Lemma create_decoder_wiring_counterexample :
  create_decoder 2 = Ok decoder_2 ∧
  decode_pos 2 0 = (4, 0, 0) ∧
  decoder_number 2 0 !! 0%nat = Some "0"%char ∧
  wired decoder_2 (1, 2 - 0 - 1, 0) (4, 0, 0) ∧
  ¬ wired decoder_2 (2, 2 - 0 - 1, 0) (4, 0, 0).
Proof.
  assert (connections <$> logic_gates decoder_2 !! 4%nat = Some [6; 7]%nat) as H4
    by (vm_compute; reflexivity).
  assert (connections <$> logic_gates decoder_2 !! 5%nat = Some [8; 9]%nat) as H5
    by (vm_compute; reflexivity).
  split; [vm_compute; reflexivity|]. split; [vm_compute; reflexivity|].
  split; [vm_compute; reflexivity|]. split.
  - exists 4%nat, 6%nat. split; [vm_compute; reflexivity|].
    split; [vm_compute; reflexivity|].
    apply (drives_lookup _ _ _ _ H4). left.
  - intros (s & t & Hs & Ht & Hdr).
    rewrite get_block_run in Hs, Ht. vm_compute in Hs, Ht.
    injection Hs as <-. injection Ht as <-.
    apply (drives_lookup _ _ _ _ H5) in Hdr.
    rewrite !elem_of_cons in Hdr. destruct Hdr as [Hdr|[Hdr|Hdr]]; [lia|lia|].
    by apply elem_of_nil in Hdr.
Qed.

(** C3, amended. For a width [w >= 2], [create_decoder] returns, and for
    every address [index] whose decode gate is placed, that gate (the gate
    number [3w + index], at [decode_pos w index]) has, for each bit position
    [off] below [w], 0 the most significant: the string [number] of [index]
    has [w] digits and its digit [off] is bit [w - 1 - off] of [index]; when
    that bit is 1 the gate has a wire from the complement line
    (2, w-off-1, 0) and none from the true line (1, w-off-1, 0); when it is 0
    a wire from the true line (1, w-off-1, 0) and none from the complement
    line (2, w-off-1, 0). *)
Theorem create_decoder_wiring (w : Z) :
  2 ≤ w →
  ∃ c, create_decoder w = Ok c ∧
    ∀ index (off : nat),
      0 ≤ index < grid_split w * grid_rows w → Z.of_nat off < w →
      get_block (decode_pos w index) c = (Ok (Some (Z.to_nat (3 * w + index))), c) ∧
      position <$> logic_gates c !! Z.to_nat (3 * w + index) = Some (decode_pos w index) ∧
      len (decoder_number w index) = w ∧
      decoder_number w index !! off
        = Some (if Z.testbit index (w - 1 - Z.of_nat off) then "1"%char else "0"%char) ∧
      (Z.testbit index (w - 1 - Z.of_nat off) = true →
         wired c (2, w - Z.of_nat off - 1, 0) (decode_pos w index) ∧
         ¬ wired c (1, w - Z.of_nat off - 1, 0) (decode_pos w index)) ∧
      (Z.testbit index (w - 1 - Z.of_nat off) = false →
         wired c (1, w - Z.of_nat off - 1, 0) (decode_pos w index) ∧
         ¬ wired c (2, w - Z.of_nat off - 1, 0) (decode_pos w index)).
Proof.
  intros Hw. destruct (create_decoder_layout w Hw) as (c & Hc & [_ _ Hs] & Hd).
  destruct (create_decoder_wf w Hw) as (c' & Hc' & Hwf).
  rewrite Hc in Hc'. injection Hc' as <-.
  exists c. split; [done|]. intros index off Hidx Hoffw.
  pose proof (grid_split_bounds w Hw) as Hsp.
  pose proof (grid_rows_bounds w Hw) as [Hrows Hsr].
  set (u := index `div` grid_rows w). set (y := index `mod` grid_rows w).
  assert (index = u * grid_rows w + y) as Hi
    by (unfold u, y; rewrite Z.mul_comm; apply Z.div_mod; lia).
  assert (0 ≤ y < grid_rows w) as Hy by (apply Z.mod_pos_bound; lia).
  assert (0 ≤ u < grid_split w) as Hu.
  { split; [apply Z.div_pos; lia|]. apply Z.div_lt_upper_bound; lia. }
  assert (0 ≤ index < 2 ^ w) as Hidx' by lia.
  set (char := if Z.testbit index (w - 1 - Z.of_nat off) then "1"%char else "0"%char).
  assert (decoder_number w index !! off = Some char) as Hoff
    by (apply decoder_number_testbit; lia).
  destruct (decoder_number_lookup w index off char) as [Hlt Hbit]; [lia|done|done|].
  assert (slot_at c (decode_pos w index) = Some (Z.to_nat (3 * w + index))) as Hdp.
  { rewrite Hs. unfold decode_pos. fold u y. split_slot_cases. }
  assert (∀ x, 1 ≤ x ≤ 2 →
    slot_at c (x, w - Z.of_nat off - 1, 0)
    = Some (Z.to_nat (3 * (w - Z.of_nat off - 1) + x))) as Hline
    by (intros x Hx; rewrite Hs; split_slot_cases).
  assert (wired c (1 + int_digit char, w - Z.of_nat off - 1, 0) (decode_pos w index)) as Hyes.
  { eexists _, _. rewrite !get_block_run, Hdp, Hline by lia.
    split; [done|]. split; [done|]. apply Hd. right.
    exists u, y, off, char. rewrite <- Hi.
    split; [unfold placed_decode; lia|]. split; [done|]. split; f_equal; lia. }
  assert (¬ wired c (2 - int_digit char, w - Z.of_nat off - 1, 0) (decode_pos w index)) as Hno.
  { intros (s & t & Hps & Hpt & Hdr).
    rewrite get_block_run in Hps, Hpt. rewrite Hdp in Hpt. rewrite Hline in Hps by lia.
    injection Hps as <-. injection Hpt as <-.
    apply Hd in Hdr as [(y' & Hy' & _ & Ht)|(u' & y' & off' & char' & Hpl & Hoff' & Hs' & Ht)].
    - lia.
    - unfold placed_decode in Hpl.
      assert (0 ≤ u' * grid_rows w) by (apply Z.mul_nonneg_nonneg; lia).
      assert (index = u' * grid_rows w + y') as Hi' by lia.
      rewrite <- Hi' in Hoff'.
      destruct (decoder_number_lookup w index off' char') as [Hlt' Hbit'];
        [lia|done|done|].
      assert (off' = off) as -> by lia.
      rewrite Hoff in Hoff'. injection Hoff' as <-. lia. }
  split; [by rewrite get_block_run, Hdp|].
  split; [by apply (wf_indexed c Hwf)|].
  split; [apply decoder_number_length; lia|]. split; [done|].
  unfold char in Hyes, Hno. split; intros Hb; rewrite Hb in Hyes, Hno.
  - rewrite int_digit_1 in *. by split.
  - rewrite int_digit_0 in *. by split.
Qed.

Lemma create_decoder_wiring_witness :
  ∃ c, create_decoder 2 = Ok c ∧
    ∀ index (off : nat),
      0 ≤ index < grid_split 2 * grid_rows 2 → Z.of_nat off < 2 →
      get_block (decode_pos 2 index) c = (Ok (Some (Z.to_nat (3 * 2 + index))), c) ∧
      position <$> logic_gates c !! Z.to_nat (3 * 2 + index) = Some (decode_pos 2 index) ∧
      len (decoder_number 2 index) = 2 ∧
      decoder_number 2 index !! off
        = Some (if Z.testbit index (2 - 1 - Z.of_nat off) then "1"%char else "0"%char) ∧
      (Z.testbit index (2 - 1 - Z.of_nat off) = true →
         wired c (2, 2 - Z.of_nat off - 1, 0) (decode_pos 2 index) ∧
         ¬ wired c (1, 2 - Z.of_nat off - 1, 0) (decode_pos 2 index)) ∧
      (Z.testbit index (2 - 1 - Z.of_nat off) = false →
         wired c (1, 2 - Z.of_nat off - 1, 0) (decode_pos 2 index) ∧
         ¬ wired c (2, 2 - Z.of_nat off - 1, 0) (decode_pos 2 index)).
Proof. apply (create_decoder_wiring 2). lia. Defined.

(** ** The gate count of the decoder *)

(** C1 fails on the code: width 1 divides by [round(0.5) = 0], and for width
    6 the grid has [10 * 6 = 60] decode gates, so the decoder has 78 gates
    and not [3 * 6 + 2 ^ 6 = 82]. *)
Theorem create_decoder_gate_count_fails :
  create_decoder 1 = Raise ZeroDivisionError ∧
  grid_split 6 = 10 ∧ grid_rows 6 = 6 ∧
  ∃ c, create_decoder 6 = Ok c ∧ len (logic_gates c) = 78 ∧ 78 ≠ 3 * 6 + 2 ^ 6.
Proof.
  split; [vm_compute; reflexivity|]. split; [vm_compute; reflexivity|].
  split; [vm_compute; reflexivity|].
  destruct (create_decoder_gate_count 6) as (c & Hc & Hlen); [lia|].
  exists c. split; [done|]. split; [|lia]. rewrite Hlen. vm_compute. reflexivity.
Qed.

(** ** The outputs of the look-up table *)

(** C2 fails on the code: in [create_lut(2, 3, square_func)] the value for
    index 1 is "001", whose only 1 is output bit 0, the OR gate at (0, 2, 0)
    (slot 10); the decode gate the loop wires for index 1, at (3, 0, 0)
    (slot 8), is wired to slot 3 alone, the input gate of address bit 1 at
    (0, 1, 0).  With the default widths (8, 8) the decode gate for index 1,
    at (3, 6, 0), is wired to slot 0, the input gate of address bit 0. *)
Theorem create_lut_outputs_fail :
  create_lut 2 3 square_func = Ok lut_2_3 ∧
  square_func 1 3 = ["0"; "0"; "1"]%char ∧
  get_block (3, 0, 0) lut_2_3 = (Ok (Some 8%nat), lut_2_3) ∧
  connections <$> logic_gates lut_2_3 !! 8%nat = Some [3%nat] ∧
  (λ g, (position g, mode g)) <$> logic_gates lut_2_3 !! 3%nat = Some ((0, 1, 0), 0) ∧
  get_block (0, 2, 0) lut_2_3 = (Ok (Some 10%nat), lut_2_3) ∧
  (λ g, (position g, mode g)) <$> logic_gates lut_2_3 !! 10%nat = Some ((0, 2, 0), 1) ∧
  create_lut 8 8 square_func = Ok lut_default ∧
  square_func 1 8 = ["0"; "0"; "0"; "0"; "0"; "0"; "0"; "1"]%char ∧
  get_block (3, 6, 0) lut_default = (Ok (Some 278%nat), lut_default) ∧
  connections <$> logic_gates lut_default !! 278%nat = Some [0%nat] ∧
  (λ g, (position g, mode g)) <$> logic_gates lut_default !! 0%nat = Some ((0, 0, 0), 0).
Proof. repeat (apply conj; [vm_compute; reflexivity|]). vm_compute. reflexivity. Qed.

(** The coordinates [create_lut] wires an address gate to: one per 1 of the
    reversed string, at [y = output_bit_width + j - address_bit_width]; the
    OR gates are at [y = address_bit_width + j]. *)
Lemma lut_outputs_elem w m func p :
  p ∈ lut_outputs w m func ↔
  ∃ j : nat, func !! j = Some "1"%char ∧ p = (0, m + Z.of_nat j - w, 0).
Proof.
  unfold lut_outputs.
  assert (∀ l start acc,
    p ∈ foldl (λ outputs '(off, char),
                 if Ascii.eqb char "1" then outputs ++ [(0, off - w, 0)] else outputs)
              acc (enumerate start l) ↔
    p ∈ acc ∨ ∃ j : nat, l !! j = Some "1"%char ∧ p = (0, start + Z.of_nat j - w, 0)) as H.
  { induction l as [|x l IH]; intros start acc.
    - simpl. split; [by left|]. by intros [?|(j & ? & _)].
    - rewrite enumerate_cons. cbn [foldl]. rewrite IH. split.
      + intros [Hacc|(j & Hj & ->)].
        * destruct (Ascii.eqb_spec x "1") as [->|Hx]; [|by left].
          apply elem_of_app in Hacc as [Hacc|Hacc]; [by left|].
          apply list_elem_of_singleton in Hacc as ->.
          right. exists 0%nat. split; [done|]. do 2 f_equal. lia.
        * right. exists (S j). split; [done|]. do 2 f_equal. lia.
      + intros [Hacc|([|j] & Hj & ->)].
        * left. destruct (Ascii.eqb x "1"); [|done]. apply elem_of_app. by left.
        * left. injection Hj as ->. rewrite Ascii.eqb_refl. apply elem_of_app. right.
          apply list_elem_of_singleton. do 2 f_equal. lia.
        * right. exists j. split; [done|]. do 2 f_equal. lia. }
  rewrite H. split; [|by right]. intros [Hnil|?]; [|done]. by apply elem_of_nil in Hnil.
Qed.

(** With [output_bit_width = 2 * address_bit_width] the two coordinates
    agree.  In [create_lut(2, 4, square_func)] the gate wired for index [i]
    is the decode gate placed for address [3 - i], whose inputs
    ([create_decoder_wiring]) make it fire on address [i], and it drives the
    OR gates of the 1 bits of [i * i]: slots 10..13 are output bits 0..3. *)
Lemma create_lut_2_4_wiring :
  create_lut 2 4 square_func = Ok lut_2_4 ∧
  (λ g, (position g, connections g)) <$> logic_gates lut_2_4 !! 9%nat
    = Some (decode_pos 2 3, []) ∧
  (λ g, (position g, connections g)) <$> logic_gates lut_2_4 !! 8%nat
    = Some (decode_pos 2 2, [10%nat]) ∧
  (λ g, (position g, connections g)) <$> logic_gates lut_2_4 !! 7%nat
    = Some (decode_pos 2 1, [12%nat]) ∧
  (λ g, (position g, connections g)) <$> logic_gates lut_2_4 !! 6%nat
    = Some (decode_pos 2 0, [10%nat; 13%nat]) ∧
  (λ i, (position <$> logic_gates lut_2_4 !! i)) <$> [10; 11; 12; 13]%nat
    = [Some (0, 2, 0); Some (0, 3, 0); Some (0, 4, 0); Some (0, 5, 0)].
Proof. repeat (apply conj; [vm_compute; reflexivity|]). vm_compute. reflexivity. Qed.


(** * Further properties of the classes *)

(** ** The operation code of a gate *)

Lemma lower_char_idemp c : lower_char (lower_char c) = lower_char c.
Proof.
  destruct c as [b0 b1 b2 b3 b4 b5 b6 b7].
  destruct b0, b1, b2, b3, b4, b5, b6, b7; reflexivity.
Qed.

Lemma lower_idemp s : lower (lower s) = lower s.
Proof. induction s as [|c s IH]; simpl; [done|]. by rewrite lower_char_idemp, IH. Qed.

(** X1. The operation code [LogicGate.__init__] stores is one of 0..5, it
    depends on the name only up to letter case, and each code other than 0
    stands for exactly one lowercased name; every other name gives 0, the
    code of "and". *)
Theorem mode_code_names (md : string) :
  0 ≤ mode_code md ≤ 5 ∧
  mode_code (lower md) = mode_code md ∧
  (mode_code md = 1 ↔ lower md = "or"%string) ∧
  (mode_code md = 2 ↔ lower md = "xor"%string) ∧
  (mode_code md = 3 ↔ lower md = "nand"%string) ∧
  (mode_code md = 4 ↔ lower md = "nor"%string) ∧
  (mode_code md = 5 ↔ lower md = "xnor"%string).
Proof.
  unfold mode_code. rewrite lower_idemp. generalize (lower md). intros m.
  destruct (String.eqb_spec m "and") as [->|?]; [by repeat split|].
  destruct (String.eqb_spec m "or") as [->|?]; [by repeat split|].
  destruct (String.eqb_spec m "xor") as [->|?]; [by repeat split|].
  destruct (String.eqb_spec m "nand") as [->|?]; [by repeat split|].
  destruct (String.eqb_spec m "nor") as [->|?]; [by repeat split|].
  destruct (String.eqb_spec m "xnor") as [->|?]; by repeat split.
Qed.

(** ** Placing on a free coordinate *)

(** X2. On a circuit of the class, [add_logic] with a gate whose coordinate
    is free returns; afterwards the coordinate is occupied, [get_block] gives
    the slot the gate got, which is the number of gates there were, that slot
    of [logic_gates] holds the gate, and the lookup of every other coordinate
    is what it was. *)
Theorem add_logic_free_coordinate (c : Circuit) (g : LogicGate) :
  wf c → (is_solid (position g) c).1 = Ok false →
  ∃ c', add_logic g c = (Ok tt, c') ∧
        (is_solid (position g) c').1 = Ok true ∧
        (get_block (position g) c').1 = Ok (Some (length (logic_gates c))) ∧
        logic_gates c' !! length (logic_gates c) = Some g ∧
        length (logic_gates c') = S (length (logic_gates c)) ∧
        ∀ q, q ≠ position g → (get_block q c').1 = (get_block q c).1.
Proof.
  intros Hwf. rewrite is_solid_run. simpl. intros [= Hfree].
  apply bool_decide_eq_false in Hfree. apply eq_None_not_Some in Hfree.
  destruct (add_logic_run g c) as (c' & Hrun & Hg & Hn & Hslot).
  exists c'. split; [done|].
  assert (slot_at c' (position g) = Some (length (logic_gates c))) as Hnew
    by (by rewrite Hslot, decide_True, Hfree, (wf_counter c Hwf)).
  split; [rewrite is_solid_run; simpl; by rewrite Hnew, bool_decide_eq_true_2|].
  split; [by rewrite get_block_run, Hnew|].
  split; [rewrite Hg, lookup_app_r by lia; by rewrite Nat.sub_diag|].
  split; [rewrite Hg, length_app; simpl; lia|].
  intros q Hq. by rewrite !get_block_run, Hslot, decide_False.
Qed.

Lemma add_logic_free_coordinate_witness :
  ∃ c', add_logic collision_first Circuit_init = (Ok tt, c') ∧
        (is_solid (position collision_first) c').1 = Ok true ∧
        (get_block (position collision_first) c').1
          = Ok (Some (length (logic_gates Circuit_init))) ∧
        logic_gates c' !! length (logic_gates Circuit_init) = Some collision_first ∧
        length (logic_gates c') = S (length (logic_gates Circuit_init)) ∧
        ∀ q, q ≠ position collision_first →
             (get_block q c').1 = (get_block q Circuit_init).1.
Proof.
  apply (add_logic_free_coordinate Circuit_init collision_first).
  - apply wf_init.
  - reflexivity.
Defined.

(** ** The invariant of the class *)

Lemma do_call_wf k c :
  wf c →
  ∃ r c', do_call k c = (r, c') ∧ wf c' ∧ (r = Ok tt ∨ (r = Raise ArityMismatch ∧ c' = c)).
Proof.
  intros Hwf. destruct k as [p md col|input_pos output_pos]; simpl.
  - destruct (wf_add_logic (LogicGate_init p md col) c Hwf) as (c' & Hrun & Hwf').
    + simpl. intros t Ht. by apply elem_of_nil in Ht.
    + exists (Ok tt), c'. split; [done|]. split; [done|by left].
  - rewrite wire_gates_run by apply Hwf.
    destruct (wire_pairs input_pos output_pos) as [ps|].
    + eexists _, _. split; [done|]. split; [by apply wf_foldl_wire_step|by left].
    + eexists _, _. split; [done|]. split; [done|by right].
Qed.

Lemma calls_wf calls c :
  wf c →
  ∃ r c', for_loop calls (λ k _, do_call k) tt c = (r, c') ∧ wf c' ∧
          (r = Ok tt ∨ r = Raise ArityMismatch).
Proof.
  revert c. induction calls as [|k calls IH]; intros c Hwf; simpl.
  - exists (Ok tt), c. split; [done|]. split; [done|by left].
  - destruct (do_call_wf k c Hwf) as (r & c' & Hrun & Hwf' & [->|[-> ->]]);
      unfold bind; rewrite Hrun.
    + by apply IH.
    + exists (Raise ArityMismatch), c. split; [done|]. split; [done|by right].
Qed.

(** X3. Whatever sequence of [add_logic] (of freshly constructed gates) and
    [wire_gates] calls is made on a new [Circuit()], the run either completes
    or stops at a [wire_gates] call with the arity error, never with an index,
    key or type error; and the circuit it leaves has [id_counter] equal to the
    number of gates, every indexed slot and every connection pointing at an
    existing gate, and every indexed slot holding a gate at that coordinate. *)
Theorem circuit_calls_keep_invariant (calls : list call) :
  ∃ r c, for_loop calls (λ k _, do_call k) tt Circuit_init = (r, c) ∧
         wf c ∧ (r = Ok tt ∨ r = Raise ArityMismatch).
Proof. apply calls_wf, wf_init. Qed.

(** ** What wiring leaves alone *)

Lemma wire_step_attrs c p :
  gate_attrs <$> logic_gates (wire_step c p) = gate_attrs <$> logic_gates c.
Proof.
  unfold wire_step. destruct (slot_at c p.1) as [s|], (slot_at c p.2) as [d|]; try done.
  destruct (logic_gates c !! s) as [g|] eqn:Hg; [|done]. simpl.
  rewrite list_fmap_insert. apply list_insert_id.
  by rewrite list_lookup_fmap, Hg.
Qed.

Lemma wire_step_connections c p s g :
  logic_gates c !! s = Some g →
  ∃ g', logic_gates (wire_step c p) !! s = Some g' ∧
        connections g `prefix_of` connections g'.
Proof.
  intros Hg. unfold wire_step.
  destruct (slot_at c p.1) as [s0|], (slot_at c p.2) as [d|]; try (by exists g).
  destruct (logic_gates c !! s0) as [g0|] eqn:Hg0; [|by exists g]. simpl.
  destruct (decide (s = s0)) as [->|Hne].
  - exists (connect_to g0 d). rewrite list_lookup_insert_eq by (by eapply lookup_lt_Some).
    split; [done|]. simplify_eq. simpl. by apply prefix_app_r.
  - exists g. by rewrite list_lookup_insert_ne.
Qed.

Lemma foldl_wire_step_attrs ps c :
  gate_attrs <$> logic_gates (foldl wire_step c ps) = gate_attrs <$> logic_gates c.
Proof.
  revert c. induction ps as [|p ps IH]; intros c; simpl; [done|].
  by rewrite IH, wire_step_attrs.
Qed.

Lemma foldl_wire_step_connections ps c s g :
  logic_gates c !! s = Some g →
  ∃ g', logic_gates (foldl wire_step c ps) !! s = Some g' ∧
        connections g `prefix_of` connections g'.
Proof.
  revert c g. induction ps as [|p ps IH]; intros c g Hg; simpl; [by exists g|].
  destruct (wire_step_connections c p s g Hg) as (g1 & Hg1 & Hpre).
  destruct (IH _ g1 Hg1) as (g2 & Hg2 & Hpre').
  exists g2. split; [done|]. by etrans.
Qed.

(** X4. On a circuit of the class, [wire_gates], whether it returns or
    raises, leaves the spatial index and the counter as they were, changes no
    gate's position, mode or colour, adds and removes no gate, and only
    appends to connection lists: what a gate was connected to before is a
    prefix of what it is connected to after. *)
Theorem wire_gates_only_appends (c : Circuit) (input_pos output_pos : list (Z * Z * Z)) :
  wf c →
  ∃ r c', wire_gates input_pos output_pos c = (r, c') ∧
    index_lut c' = index_lut c ∧ id_counter c' = id_counter c ∧
    gate_attrs <$> logic_gates c' = gate_attrs <$> logic_gates c ∧
    ∀ s g, logic_gates c !! s = Some g →
           ∃ g', logic_gates c' !! s = Some g' ∧
                 connections g `prefix_of` connections g'.
Proof.
  intros Hwf. rewrite wire_gates_run by apply Hwf.
  destruct (wire_pairs input_pos output_pos) as [ps|].
  - eexists _, _. split; [done|].
    split; [apply foldl_wire_step_index_lut|].
    split; [apply foldl_wire_step_id_counter|].
    split; [apply foldl_wire_step_attrs|]. intros s g. apply foldl_wire_step_connections.
  - eexists _, _. split; [done|]. repeat split. intros s g Hg. by exists g.
Qed.

Lemma wire_gates_only_appends_witness :
  ∃ r c', wire_gates [(0, 0, 0)] [(0, 0, 0); (1, 0, 0)] collision_after = (r, c') ∧
    index_lut c' = index_lut collision_after ∧ id_counter c' = id_counter collision_after ∧
    gate_attrs <$> logic_gates c' = gate_attrs <$> logic_gates collision_after ∧
    ∀ s g, logic_gates collision_after !! s = Some g →
           ∃ g', logic_gates c' !! s = Some g' ∧
                 connections g `prefix_of` connections g'.
Proof.
  apply (wire_gates_only_appends collision_after [(0, 0, 0)] [(0, 0, 0); (1, 0, 0)]).
  destruct (calls_wf [Call_add_logic (0, 0, 0) "and" "eeeeee";
                      Call_add_logic (0, 0, 0) "or" "22ee22"] Circuit_init wf_init)
    as (r & c & Hrun & Hwf & _).
  vm_compute in Hrun. injection Hrun as _ <-. exact Hwf.
Defined.

(** ** Fan-out and fan-in *)

Lemma pair_targets_fan_out c i0 output_pos :
  pair_targets c i0 (pair i0 <$> output_pos) = omap (slot_at c) output_pos.
Proof.
  induction output_pos as [|o os IH]; [done|].
  rewrite fmap_cons, pair_targets_cons, IH. unfold pair_targets. simpl.
  rewrite bool_decide_eq_true_2 by done. by destruct (slot_at c o).
Qed.

Lemma pair_targets_fan_out_other c q i0 output_pos :
  q ≠ i0 → pair_targets c q (pair i0 <$> output_pos) = [].
Proof.
  intros Hq. induction output_pos as [|o os IH]; [done|].
  rewrite fmap_cons, pair_targets_cons, IH. unfold pair_targets. simpl.
  by rewrite bool_decide_eq_false_2 by done.
Qed.

Lemma pair_targets_fan_in c p input_pos o0 t :
  slot_at c o0 = Some t →
  pair_targets c p ((λ i, (i, o0)) <$> input_pos)
  = replicate (length (filter (λ i, i = p) input_pos)) t.
Proof.
  intros Ht. induction input_pos as [|i ins IH]; [done|].
  rewrite fmap_cons, pair_targets_cons, IH. unfold pair_targets. simpl.
  rewrite Ht. destruct (decide (i = p)) as [->|Hne].
  - by rewrite bool_decide_eq_true_2, filter_cons_True by done.
  - by rewrite bool_decide_eq_false_2, filter_cons_False by done.
Qed.

Lemma gate_eq (g g' : LogicGate) :
  position g' = position g → mode g' = mode g → color g' = color g →
  connections g' = connections g → g' = g.
Proof. destruct g, g'. simpl. by intros -> -> -> ->. Qed.

(** X5. On a circuit of the class, [wire_gates] with a single input
    coordinate and any number of outputs returns and connects the input's
    gate to each occupied output, in order: the gate found at the input
    keeps its position, mode and colour and its connections are the old ones
    followed by the slots of the occupied outputs in their order; the gate
    found at any other coordinate is as it was; so a gate found by
    coordinate drives [t] afterwards exactly when it did before or it is the
    input's gate and [t] the slot of one of the outputs.  With the input
    unoccupied, or no outputs, the circuit is unchanged. *)
Theorem wire_gates_fan_out (c : Circuit) (i0 : Z * Z * Z) (output_pos : list (Z * Z * Z)) :
  wf c →
  ∃ c', wire_gates [i0] output_pos c = (Ok tt, c') ∧
        (∀ s g, (get_block i0 c).1 = Ok (Some s) → logic_gates c !! s = Some g →
           ∃ g', logic_gates c' !! s = Some g' ∧
                 position g' = position g ∧ mode g' = mode g ∧ color g' = color g ∧
                 connections g' = connections g ++ omap (slot_at c) output_pos) ∧
        (∀ q s, q ≠ i0 → (get_block q c).1 = Ok (Some s) →
           logic_gates c' !! s = logic_gates c !! s) ∧
        (∀ p s t, (get_block p c).1 = Ok (Some s) →
           drives c' s t ↔
           drives c s t ∨
           ((get_block i0 c).1 = Ok (Some s) ∧
            ∃ o, o ∈ output_pos ∧ (get_block o c).1 = Ok (Some t))) ∧
        ((is_solid i0 c).1 = Ok false ∨ output_pos = [] → c' = c).
Proof.
  intros Hwf. rewrite wire_gates_run, wire_pairs_fan_out_eq by apply Hwf.
  eexists. split; [done|]. split; [|split; [|split]].
  - intros s g. rewrite get_block_run. simpl. intros [= Hs] Hg.
    rewrite <- (pair_targets_fan_out c i0). by apply foldl_wire_step_targets.
  - intros q s Hq. rewrite get_block_run. simpl. intros [= Hs].
    pose proof (wf_slots c Hwf q s Hs) as Hlt.
    destruct (lookup_lt_is_Some_2 _ _ Hlt) as [g Hg].
    destruct (foldl_wire_step_targets (pair i0 <$> output_pos) c q s g Hwf Hs Hg)
      as (g' & Hg' & Hpos & Hm & Hc & Hconn).
    rewrite pair_targets_fan_out_other, app_nil_r in Hconn by done.
    by rewrite Hg, Hg', (gate_eq g g').
  - intros p s t _. rewrite drives_foldl_wire_step by apply Hwf.
    setoid_rewrite get_block_run. simpl. split.
    + intros [H|(pr & Hp & Hs & Ht)]; [by left|]. right.
      apply list_elem_of_fmap in Hp as (o & -> & Ho). simpl in *.
      split; [by rewrite Hs|]. exists o. split; [done|by rewrite Ht].
    + intros [H|([= Hs] & o & Ho & [= Ht])]; [by left|]. right.
      exists (i0, o). split; [|done]. apply list_elem_of_fmap. by exists o.
  - intros [H| ->]; [|done]. rewrite is_solid_run in H. simpl in H.
    injection H as H. apply bool_decide_eq_false in H.
    apply foldl_wire_step_skip. intros p Hp.
    apply list_elem_of_fmap in Hp as (o & -> & _). left. by apply eq_None_not_Some.
Qed.

(** In the decoder of width 2, the input gate at (0, 0, 0) is wired to the
    decode gates at (3, 0, 0) and (4, 0, 0), slots 8 and 6; the coordinate
    (9, 9, 9) between them is not occupied and is skipped. *)
Lemma wire_gates_fan_out_witness :
  omap (slot_at decoder_2) [(3, 0, 0); (9, 9, 9); (4, 0, 0)] = [8; 6]%nat ∧
  ∃ c', wire_gates [(0, 0, 0)] [(3, 0, 0); (9, 9, 9); (4, 0, 0)] decoder_2 = (Ok tt, c') ∧
        (∀ s g, (get_block (0, 0, 0) decoder_2).1 = Ok (Some s) →
           logic_gates decoder_2 !! s = Some g →
           ∃ g', logic_gates c' !! s = Some g' ∧
                 position g' = position g ∧ mode g' = mode g ∧ color g' = color g ∧
                 connections g' =
                   connections g ++
                   omap (slot_at decoder_2) [(3, 0, 0); (9, 9, 9); (4, 0, 0)]) ∧
        (∀ q s, q ≠ (0, 0, 0) → (get_block q decoder_2).1 = Ok (Some s) →
           logic_gates c' !! s = logic_gates decoder_2 !! s) ∧
        (∀ p s t, (get_block p decoder_2).1 = Ok (Some s) →
           drives c' s t ↔
           drives decoder_2 s t ∨
           ((get_block (0, 0, 0) decoder_2).1 = Ok (Some s) ∧
            ∃ o, o ∈ [(3, 0, 0); (9, 9, 9); (4, 0, 0)] ∧
                 (get_block o decoder_2).1 = Ok (Some t))) ∧
        ((is_solid (0, 0, 0) decoder_2).1 = Ok false ∨
         [(3, 0, 0); (9, 9, 9); (4, 0, 0)] = ([] : list (Z * Z * Z)) → c' = decoder_2).
Proof.
  split; [vm_compute; reflexivity|].
  exact (wire_gates_fan_out decoder_2 (0, 0, 0) [(3, 0, 0); (9, 9, 9); (4, 0, 0)]
           wf_decoder_2).
Defined.

(** X6. On a circuit of the class, [wire_gates] with a single output
    coordinate and any number of inputs returns and connects the gate of
    each occupied input to the output, in order: with the output at slot
    [t], the gate found at a coordinate [p] keeps its position, mode and
    colour and its connections are the old ones followed by [t] once for
    every occurrence of [p] among the inputs; so a gate found by coordinate
    drives [t'] afterwards exactly when it did before or [t'] is the output's
    slot and the gate is that of one of the inputs.  With the output
    unoccupied, or no inputs, the circuit is unchanged. *)
Theorem wire_gates_fan_in (c : Circuit) (input_pos : list (Z * Z * Z)) (o0 : Z * Z * Z) :
  wf c →
  ∃ c', wire_gates input_pos [o0] c = (Ok tt, c') ∧
        (∀ p s g t, (get_block p c).1 = Ok (Some s) → logic_gates c !! s = Some g →
           (get_block o0 c).1 = Ok (Some t) →
           ∃ g', logic_gates c' !! s = Some g' ∧
                 position g' = position g ∧ mode g' = mode g ∧ color g' = color g ∧
                 connections g' =
                   connections g ++
                   replicate (length (filter (λ i, i = p) input_pos)) t) ∧
        (∀ p s t, (get_block p c).1 = Ok (Some s) →
           drives c' s t ↔
           drives c s t ∨
           ((get_block o0 c).1 = Ok (Some t) ∧
            ∃ i, i ∈ input_pos ∧ (get_block i c).1 = Ok (Some s))) ∧
        ((is_solid o0 c).1 = Ok false ∨ input_pos = [] → c' = c).
Proof.
  intros Hwf. rewrite wire_gates_run, wire_pairs_fan_in_eq by apply Hwf.
  eexists. split; [done|]. split; [|split].
  - intros p s g t. rewrite !get_block_run. simpl. intros [= Hs] Hg [= Ht].
    rewrite <- (pair_targets_fan_in c p input_pos o0 t Ht).
    by apply foldl_wire_step_targets.
  - intros p s t _. rewrite drives_foldl_wire_step by apply Hwf.
    setoid_rewrite get_block_run. simpl. split.
    + intros [H|(pr & Hp & Hs & Ht)]; [by left|]. right.
      apply list_elem_of_fmap in Hp as (i & -> & Hi). simpl in *.
      split; [by rewrite Ht|]. exists i. split; [done|by rewrite Hs].
    + intros [H|([= Ht] & i & Hi & [= Hs])]; [by left|]. right.
      exists (i, o0). split; [|done]. apply list_elem_of_fmap. by exists i.
  - intros [H| ->]; [|done]. rewrite is_solid_run in H. simpl in H.
    injection H as H. apply bool_decide_eq_false in H.
    apply foldl_wire_step_skip. intros p Hp.
    apply list_elem_of_fmap in Hp as (i & -> & _). right. by apply eq_None_not_Some.
Qed.

(** In the decoder of width 2, the decode gates at (3, 0, 0), twice, and at
    (4, 0, 0) are wired to the input gate at (0, 1, 0), slot 3; the
    coordinate (9, 9, 9) is not occupied and is skipped. *)
Lemma wire_gates_fan_in_witness :
  (get_block (0, 1, 0) decoder_2).1 = Ok (Some 3%nat) ∧
  length (filter (λ i, i = (3, 0, 0)) [(3, 0, 0); (9, 9, 9); (3, 0, 0); (4, 0, 0)]) = 2%nat ∧
  ∃ c', wire_gates [(3, 0, 0); (9, 9, 9); (3, 0, 0); (4, 0, 0)] [(0, 1, 0)] decoder_2
          = (Ok tt, c') ∧
        (∀ p s g t, (get_block p decoder_2).1 = Ok (Some s) →
           logic_gates decoder_2 !! s = Some g →
           (get_block (0, 1, 0) decoder_2).1 = Ok (Some t) →
           ∃ g', logic_gates c' !! s = Some g' ∧
                 position g' = position g ∧ mode g' = mode g ∧ color g' = color g ∧
                 connections g' =
                   connections g ++
                   replicate (length (filter (λ i, i = p)
                     [(3, 0, 0); (9, 9, 9); (3, 0, 0); (4, 0, 0)])) t) ∧
        (∀ p s t, (get_block p decoder_2).1 = Ok (Some s) →
           drives c' s t ↔
           drives decoder_2 s t ∨
           ((get_block (0, 1, 0) decoder_2).1 = Ok (Some t) ∧
            ∃ i, i ∈ [(3, 0, 0); (9, 9, 9); (3, 0, 0); (4, 0, 0)] ∧
                 (get_block i decoder_2).1 = Ok (Some s))) ∧
        ((is_solid (0, 1, 0) decoder_2).1 = Ok false ∨
         [(3, 0, 0); (9, 9, 9); (3, 0, 0); (4, 0, 0)] = ([] : list (Z * Z * Z)) →
         c' = decoder_2).
Proof.
  split; [vm_compute; reflexivity|]. split; [vm_compute; reflexivity|].
  exact (wire_gates_fan_in decoder_2 [(3, 0, 0); (9, 9, 9); (3, 0, 0); (4, 0, 0)]
           (0, 1, 0) wf_decoder_2).
Defined.

(** ** Repeated and self connections *)

Lemma wire_single c a b s d g :
  wf c → slot_at c a = Some s → slot_at c b = Some d → logic_gates c !! s = Some g →
  wire_gates [a] [b] c
  = (Ok tt, {| logic_gates := <[s := connect_to g d]> (logic_gates c);
               index_lut := index_lut c; id_counter := id_counter c |}).
Proof.
  intros Hwf Ha Hb Hg. rewrite wire_gates_run, wire_pairs_fan_out_eq by apply Hwf.
  simpl. unfold wire_step. simpl. by rewrite Ha, Hb, Hg.
Qed.

(** X7. [wire_gates] does not deduplicate and does not exclude a gate wired
    to itself: connecting an occupied coordinate [a] to an occupied [b]
    (which may be [a]) appends the slot of [b] to the connections of the gate
    of [a] also when it is there already, so doing it twice appends it
    twice. *)
Theorem wire_gates_twice (c : Circuit) (a b : Z * Z * Z) (s d : nat) (g : LogicGate) :
  wf c →
  (get_block a c).1 = Ok (Some s) → (get_block b c).1 = Ok (Some d) →
  logic_gates c !! s = Some g →
  ∃ c1 c2, wire_gates [a] [b] c = (Ok tt, c1) ∧
           connections <$> logic_gates c1 !! s = Some (connections g ++ [d]) ∧
           wire_gates [a] [b] c1 = (Ok tt, c2) ∧
           connections <$> logic_gates c2 !! s = Some (connections g ++ [d; d]).
Proof.
  intros Hwf. rewrite !get_block_run. simpl. intros [= Ha] [= Hb] Hg.
  assert (s < length (logic_gates c))%nat as Hlt by (by eapply lookup_lt_Some).
  rewrite (wire_single c a b s d g) by done.
  set (c1 := {| logic_gates := <[s := connect_to g d]> (logic_gates c);
                index_lut := index_lut c; id_counter := id_counter c |}).
  assert (logic_gates c1 !! s = Some (connect_to g d)) as Hg1
    by (simpl; by rewrite list_lookup_insert_eq).
  assert (wf c1) as Hwf1.
  { pose proof (wf_foldl_wire_step [(a, b)] c Hwf) as H. simpl in H.
    unfold wire_step in H. simpl in H. by rewrite Ha, Hb, Hg in H. }
  exists c1. eexists. split; [done|]. split; [by rewrite Hg1|].
  split; [by apply (wire_single c1 a b s d (connect_to g d))|].
  simpl. rewrite list_lookup_insert_eq by (by rewrite length_insert).
  simpl. by rewrite <- app_assoc.
Qed.

Lemma wire_gates_twice_witness :
  ∃ c1 c2, wire_gates [(0, 0, 0)] [(0, 0, 0)] collision_before = (Ok tt, c1) ∧
           connections <$> logic_gates c1 !! 0%nat
             = Some (connections collision_first ++ [0%nat]) ∧
           wire_gates [(0, 0, 0)] [(0, 0, 0)] c1 = (Ok tt, c2) ∧
           connections <$> logic_gates c2 !! 0%nat
             = Some (connections collision_first ++ [0%nat; 0%nat]).
Proof.
  apply (wire_gates_twice collision_before (0, 0, 0) (0, 0, 0) 0 0 collision_first).
  - destruct (calls_wf [Call_add_logic (0, 0, 0) "and" "eeeeee"] Circuit_init wf_init)
      as (r & c & Hrun & Hwf & _).
    vm_compute in Hrun. injection Hrun as _ <-. exact Hwf.
  - reflexivity.
  - reflexivity.
  - reflexivity.
Defined.

(** ** The export *)

(** The table of squares of width 2 with 4 output bits is a circuit of the
    class. *)
Lemma wf_lut_2_4 : wf lut_2_4.
Proof.
  destruct (create_lut_wf 2 4 square_func) as (c & Hc & Hwf); [lia|].
  unfold lut_2_4. rewrite Hc. exact Hwf.
Qed.

(** X8. [to_blueprint] makes one record per gate, in the order of
    [logic_gates]: record [i] has id [i] and the position, mode, colour and
    connections of gate [i].  On a circuit of the class the record at the
    slot [get_block] gives for a coordinate is a record at that coordinate
    with that id; every id listed in a record's [controllers] is the id of
    exactly one record of the export, the one at that place; and the gate at
    [p] is wired to the gate at [q] exactly when the record of [p] lists the
    id of the record of [q]. *)
Theorem to_blueprint_records (c : Circuit) :
  wf c →
  length (to_blueprint c) = length (logic_gates c) ∧
  (∀ i ch, to_blueprint c !! i = Some ch →
     id (controller ch) = i ∧ active (controller ch) = false ∧
     ∃ g, logic_gates c !! i = Some g ∧ pos ch = position g ∧
          controllers (controller ch) = connections g ∧
          controller_mode (controller ch) = mode g ∧ child_color ch = color g) ∧
  (∀ p s, (get_block p c).1 = Ok (Some s) →
     ∃ ch, to_blueprint c !! s = Some ch ∧ pos ch = p ∧ id (controller ch) = s) ∧
  (∀ i ch t, to_blueprint c !! i = Some ch → t ∈ controllers (controller ch) →
     ∃ ch', to_blueprint c !! t = Some ch' ∧ id (controller ch') = t ∧
            ∀ j ch'', to_blueprint c !! j = Some ch'' → id (controller ch'') = t → j = t) ∧
  (∀ p q, wired c p q ↔
     ∃ s t chp chq,
       (get_block p c).1 = Ok (Some s) ∧ (get_block q c).1 = Ok (Some t) ∧
       to_blueprint c !! s = Some chp ∧ to_blueprint c !! t = Some chq ∧
       pos chp = p ∧ pos chq = q ∧
       id (controller chq) ∈ controllers (controller chp)).
Proof.
  intros Hwf.
  assert (∀ i ch, to_blueprint c !! i = Some ch →
     id (controller ch) = i ∧ active (controller ch) = false ∧
     ∃ g, logic_gates c !! i = Some g ∧ pos ch = position g ∧
          controllers (controller ch) = connections g ∧
          controller_mode (controller ch) = mode g ∧ child_color ch = color g) as Hrec.
  { intros i ch. unfold to_blueprint. rewrite list_lookup_imap.
    destruct (logic_gates c !! i) as [g|]; [|done]. simpl. intros [= <-]. simpl.
    split; [done|]. split; [done|]. by exists g. }
  assert (∀ p s, slot_at c p = Some s →
     ∃ ch, to_blueprint c !! s = Some ch ∧ pos ch = p ∧ id (controller ch) = s) as Hat.
  { intros p s Hs. pose proof (wf_indexed c Hwf p s Hs) as Hp.
    unfold to_blueprint. rewrite list_lookup_imap.
    destruct (logic_gates c !! s) as [g|]; [|done]. simpl in *. injection Hp as <-.
    eexists. split; [done|]. done. }
  split; [apply length_imap|]. split; [exact Hrec|]. split; [|split].
  - intros p s. rewrite get_block_run. simpl. intros [= Hs]. by apply Hat.
  - intros i ch t Hch Ht.
    destruct (Hrec i ch Hch) as (_ & _ & g & Hg & _ & Hconn & _).
    assert (drives c i t) as Hdr by (exists g; split; [done|by rewrite <- Hconn]).
    pose proof (wf_targets c Hwf i t Hdr) as Hlt.
    destruct (lookup_lt_is_Some_2 (to_blueprint c) t) as [ch' Hch'].
    { unfold to_blueprint. by rewrite length_imap. }
    exists ch'. split; [done|]. split; [by apply (Hrec t ch' Hch')|].
    intros j ch'' Hj Hid. destruct (Hrec j ch'' Hj) as [Hj' _]. by rewrite <- Hj', Hid.
  - intros p q. unfold wired. setoid_rewrite get_block_run. simpl. split.
    + intros (s & t & [= Hs] & [= Ht] & g & Hg & Hin).
      destruct (Hat p s Hs) as (chp & Hchp & Hpp & _).
      destruct (Hat q t Ht) as (chq & Hchq & Hpq & Hidq).
      exists s, t, chp, chq. rewrite Hs, Ht.
      destruct (Hrec s chp Hchp) as (_ & _ & g' & Hg' & _ & Hconn & _).
      rewrite Hg in Hg'. injection Hg' as <-. by rewrite Hidq, Hconn.
    + intros (s & t & chp & chq & [= Hs] & [= Ht] & Hchp & Hchq & _ & _ & Hin).
      exists s, t. rewrite Hs, Ht. split; [done|]. split; [done|].
      destruct (Hrec s chp Hchp) as (_ & _ & g & Hg & _ & Hconn & _).
      destruct (Hrec t chq Hchq) as [Hidq _].
      exists g. split; [done|]. by rewrite <- Hconn, <- Hidq.
Qed.

(** The export of the table of squares of width 2 with 4 output bits: 14
    records, of which record 6, the gate that decodes address 3, lists the
    ids 10 and 13, the OR gates of output bits 0 and 3 (3 * 3 = 9 is 1001). *)
Lemma to_blueprint_records_witness :
  length (to_blueprint lut_2_4) = 14%nat ∧
  (λ ch, (pos ch, controllers (controller ch))) <$> to_blueprint lut_2_4 !! 6%nat
    = Some ((4, 0, 0), [10; 13]%nat) ∧
  length (to_blueprint lut_2_4) = length (logic_gates lut_2_4) ∧
  (∀ i ch, to_blueprint lut_2_4 !! i = Some ch →
     id (controller ch) = i ∧ active (controller ch) = false ∧
     ∃ g, logic_gates lut_2_4 !! i = Some g ∧ pos ch = position g ∧
          controllers (controller ch) = connections g ∧
          controller_mode (controller ch) = mode g ∧ child_color ch = color g) ∧
  (∀ p s, (get_block p lut_2_4).1 = Ok (Some s) →
     ∃ ch, to_blueprint lut_2_4 !! s = Some ch ∧ pos ch = p ∧ id (controller ch) = s) ∧
  (∀ i ch t, to_blueprint lut_2_4 !! i = Some ch → t ∈ controllers (controller ch) →
     ∃ ch', to_blueprint lut_2_4 !! t = Some ch' ∧ id (controller ch') = t ∧
            ∀ j ch'', to_blueprint lut_2_4 !! j = Some ch'' →
                      id (controller ch'') = t → j = t) ∧
  (∀ p q, wired lut_2_4 p q ↔
     ∃ s t chp chq,
       (get_block p lut_2_4).1 = Ok (Some s) ∧ (get_block q lut_2_4).1 = Ok (Some t) ∧
       to_blueprint lut_2_4 !! s = Some chp ∧ to_blueprint lut_2_4 !! t = Some chq ∧
       pos chp = p ∧ pos chq = q ∧
       id (controller chq) ∈ controllers (controller chp)).
Proof.
  split; [vm_compute; reflexivity|]. split; [vm_compute; reflexivity|].
  exact (to_blueprint_records lut_2_4 wf_lut_2_4).
Defined.

(** * Further properties of the builders *)

(** ** For which widths the builders return *)

Lemma create_decoder_zero_division w :
  0 ≤ w < 2 → create_decoder w = Raise ZeroDivisionError.
Proof.
  intros Hw. assert (w = 0 ∨ w = 1) as [-> | ->] by lia; vm_compute; reflexivity.
Qed.

Lemma create_decoder_negative w : w < 0 → create_decoder w = Raise TypeError.
Proof. intros Hw. unfold create_decoder. by destruct (Z.ltb_spec w 0); [|lia]. Qed.

(** X9. [create_decoder] and [create_lut] return a circuit exactly for the
    widths from 2 on: widths 0 and 1 end in a division by zero (the rounded
    [address_bit_width - 0.5] is 0), for [create_lut] whatever the output
    width and the bit function. *)
Theorem builders_return_iff (w m : Z) (f : Z → Z → list ascii) :
  ((∃ c, create_decoder w = Ok c) ↔ 2 ≤ w) ∧
  ((∃ c, create_lut w m f = Ok c) ↔ 2 ≤ w) ∧
  (0 ≤ w < 2 → create_decoder w = Raise ZeroDivisionError ∧
               create_lut w m f = Raise ZeroDivisionError).
Proof.
  split; [|split].
  - split.
    + intros [c Hc]. destruct (Z.lt_ge_cases w 2) as [Hw|Hw]; [|done].
      destruct (create_decoder_small w Hw) as [e He]. by rewrite He in Hc.
    + intros Hw. destruct (create_decoder_wf w Hw) as (c & Hc & _). by exists c.
  - split.
    + intros [c Hc]. destruct (Z.lt_ge_cases w 2) as [Hw|Hw]; [|done].
      destruct (create_decoder_small w Hw) as [e He].
      unfold create_lut in Hc. by rewrite He in Hc.
    + intros Hw. destruct (create_lut_wf w m f Hw) as (c & Hc & _). by exists c.
  - intros Hw. pose proof (create_decoder_zero_division w Hw) as H.
    split; [done|]. unfold create_lut. by rewrite H.
Qed.

Lemma builders_return_iff_witness :
  create_decoder 1 = Raise ZeroDivisionError ∧
  create_lut 1 16 square_func = Raise ZeroDivisionError.
Proof. apply (builders_return_iff 1 16 square_func). lia. Defined.

(** ** The widths with a full grid *)

Lemma grid_full_pow2 w k :
  1 ≤ k → w = 2 ^ k ∨ w = 2 ^ k + 1 → grid_split w * grid_rows w = 2 ^ w.
Proof.
  intros Hk Hw.
  assert (k < 2 ^ k) as Hlt by (apply Z.pow_gt_lin_r; lia).
  assert (Z.even (2 ^ k) = true) as Hev.
  { replace k with (Z.succ (k - 1)) by lia. rewrite Z.pow_succ_r by lia.
    by rewrite Z.even_mul. }
  assert (grid_round w = 2 ^ k) as Hr.
  { rewrite grid_round_parity. destruct Hw as [-> | ->].
    - by rewrite Hev.
    - replace (2 ^ k + 1) with (Z.succ (2 ^ k)) by lia.
      rewrite Z.even_succ, <- Z.negb_even, Hev. simpl. lia. }
  assert (k ≤ w) as Hkw by lia.
  assert (grid_split w = 2 ^ (w - k)) as Hs
    by (unfold grid_split; rewrite Hr; symmetry; apply Z.pow_sub_r; lia).
  assert (grid_rows w = 2 ^ k) as Hrows.
  { unfold grid_rows. rewrite Hs. replace k with (w - (w - k)) at 2 by lia.
    symmetry. apply Z.pow_sub_r; lia. }
  rewrite Hs, Hrows, <- Z.pow_add_r by lia. f_equal. lia.
Qed.

(** X10. For every width from 2 on the decoder has its [3w] line gates and
    a grid of [split * (n // split)] decode gates, which is never more than
    [2 ^ w]; when the width is a power of two or one more than a power of
    two (2, 3, 4, 5, 8, 9, 16, ...) the grid is full and the decoder has
    exactly [3w + 2 ^ w] gates. *)
Theorem create_decoder_gate_count_full (w : Z) :
  2 ≤ w →
  ∃ c, create_decoder w = Ok c ∧
       len (logic_gates c) = 3 * w + grid_split w * grid_rows w ∧
       1 ≤ grid_split w * grid_rows w ≤ 2 ^ w ∧
       ∀ k, 1 ≤ k → w = 2 ^ k ∨ w = 2 ^ k + 1 → len (logic_gates c) = 3 * w + 2 ^ w.
Proof.
  intros Hw. destruct (create_decoder_gate_count w Hw) as (c & Hc & Hlen).
  exists c. split; [done|]. split; [done|].
  pose proof (grid_split_bounds w Hw). pose proof (grid_rows_bounds w Hw) as [??].
  split; [nia|]. intros k Hk Hwk. by rewrite Hlen, (grid_full_pow2 w k).
Qed.

Lemma create_decoder_gate_count_full_witness :
  ∃ c, create_decoder 8 = Ok c ∧
       len (logic_gates c) = 3 * 8 + grid_split 8 * grid_rows 8 ∧
       1 ≤ grid_split 8 * grid_rows 8 ≤ 2 ^ 8 ∧
       ∀ k, 1 ≤ k → 8 = 2 ^ k ∨ 8 = 2 ^ k + 1 → len (logic_gates c) = 3 * 8 + 2 ^ 8.
Proof. apply (create_decoder_gate_count_full 8). lia. Defined.

(** ** The lines of the decoder *)

(** X11. In the decoder of a width from 2 on, for every address bit [y] the
    three line gates are at slots [3y], [3y + 1] and [3y + 2]; the input gate
    (0, y, 0) drives the true gate (1, y, 0) and the complement gate
    (2, y, 0) and nothing else; and no decode gate drives anything. *)
Theorem create_decoder_lines (w : Z) :
  2 ≤ w →
  ∃ c, create_decoder w = Ok c ∧
    (∀ x y, 0 ≤ x ≤ 2 → 0 ≤ y < w →
       (get_block (x, y, 0) c).1 = Ok (Some (Z.to_nat (3 * y + x)))) ∧
    (∀ y t, 0 ≤ y < w →
       drives c (Z.to_nat (3 * y)) t ↔
       t = Z.to_nat (3 * y + 1) ∨ t = Z.to_nat (3 * y + 2)) ∧
    (∀ index t, 0 ≤ index < grid_split w * grid_rows w →
       ¬ drives c (Z.to_nat (3 * w + index)) t).
Proof.
  intros Hw. destruct (create_decoder_layout w Hw) as (c & Hc & [_ _ Hs] & Hd).
  exists c. split; [done|].
  assert (∀ u y (off : nat) char,
    placed_decode (grid_split w) (grid_rows w) (grid_split w) 0 u y →
    decoder_number w (u * grid_rows w + y) !! off = Some char →
    0 ≤ Z.of_nat off < w ∧ (int_digit char = 0 ∨ int_digit char = 1)) as Hdigit.
  { intros u y off char Hpl Hoff. unfold placed_decode in Hpl.
    destruct (decoder_number_lookup w (u * grid_rows w + y) off char);
      [lia|apply grid_index_bounds; lia|done|]. lia. }
  split; [|split].
  - intros x y Hx Hy. rewrite get_block_run, Hs. simpl. split_slot_cases.
  - intros y t Hy. rewrite (Hd _ t). unfold decoder_drives_spec. split.
    + intros [(y' & Hy' & Hs' & Ht)|(u & y' & off & char & Hpl & Hoff & Hs' & _)].
      * assert (y' = y) as -> by lia. done.
      * destruct (Hdigit u y' off char Hpl Hoff). lia.
    + intros Ht. left. exists y. by split.
  - intros index t Hidx. rewrite (Hd _ t). unfold decoder_drives_spec.
    intros [(y' & Hy' & Hs' & _)|(u & y' & off & char & Hpl & Hoff & Hs' & _)].
    + lia.
    + destruct (Hdigit u y' off char Hpl Hoff). lia.
Qed.

Lemma create_decoder_lines_witness :
  ∃ c, create_decoder 2 = Ok c ∧
    (∀ x y, 0 ≤ x ≤ 2 → 0 ≤ y < 2 →
       (get_block (x, y, 0) c).1 = Ok (Some (Z.to_nat (3 * y + x)))) ∧
    (∀ y t, 0 ≤ y < 2 →
       drives c (Z.to_nat (3 * y)) t ↔
       t = Z.to_nat (3 * y + 1) ∨ t = Z.to_nat (3 * y + 2)) ∧
    (∀ index t, 0 ≤ index < grid_split 2 * grid_rows 2 →
       ¬ drives c (Z.to_nat (3 * 2 + index)) t).
Proof. apply (create_decoder_lines 2). lia. Defined.

(** ** The digits of an address *)

(** X12. The string [number] that [create_decoder] builds for an address
    below [2 ^ w] has exactly [w] digits, and the digit at position [off] is
    bit [w - 1 - off] of the address: the zero-padded binary representation,
    most significant bit first. *)
Theorem decoder_number_bits_of_index (w index : Z) :
  1 ≤ w → 0 ≤ index < 2 ^ w →
  len (decoder_number w index) = w ∧
  ∀ off : nat, Z.of_nat off < w →
    decoder_number w index !! off
    = Some (if Z.testbit index (w - 1 - Z.of_nat off) then "1"%char else "0"%char).
Proof.
  intros Hw Hi. split; [by apply decoder_number_length|].
  intros off Hoff. by apply decoder_number_testbit.
Qed.

Lemma decoder_number_bits_of_index_witness :
  len (decoder_number 8 37) = 8 ∧
  ∀ off : nat, Z.of_nat off < 8 →
    decoder_number 8 37 !! off
    = Some (if Z.testbit 37 (8 - 1 - Z.of_nat off) then "1"%char else "0"%char).
Proof. apply (decoder_number_bits_of_index 8 37); lia. Defined.

(** ** The kinds of gates the builders place *)

Lemma add_logic_kinds kind p md col c :
  wf c → kinds kind c → (mode_code md, col) = kind p →
  ∃ c', add_logic (LogicGate_init p md col) c = (Ok tt, c') ∧ wf c' ∧ kinds kind c'.
Proof.
  intros Hwf Hk Hkind.
  destruct (wf_add_logic (LogicGate_init p md col) c Hwf) as (c' & Hrun & Hwf').
  { simpl. intros t Ht. by apply elem_of_nil in Ht. }
  exists c'. split; [done|]. split; [done|].
  destruct (add_logic_run (LogicGate_init p md col) c) as (c'' & Hrun' & Hg & _ & Hslot).
  rewrite Hrun in Hrun'. injection Hrun' as <-.
  intros q s g. rewrite Hslot, Hg. simpl. case_decide as Hq.
  - subst q. destruct (slot_at c p) as [s'|] eqn:Hs'; simpl; intros [= <-].
    + rewrite lookup_app_l by (by eapply (wf_slots c Hwf)). by apply Hk.
    + rewrite (wf_counter c Hwf), lookup_app_r by lia. rewrite Nat.sub_diag.
      by intros [= <-].
  - intros Hs. rewrite lookup_app_l by (by eapply (wf_slots c Hwf)). by apply Hk.
Qed.

Lemma foldl_wire_step_kinds kind ps c : kinds kind c → kinds kind (foldl wire_step c ps).
Proof.
  intros Hk p s g. rewrite foldl_wire_step_slot_at. intros Hs Hg.
  assert (gate_attrs <$> logic_gates c !! s = Some (gate_attrs g)) as Ha
    by (by rewrite <- list_lookup_fmap, <- (foldl_wire_step_attrs ps), list_lookup_fmap, Hg).
  destruct (logic_gates c !! s) as [g0|] eqn:Hg0; [|done].
  simpl in Ha. unfold gate_attrs in Ha. injection Ha as _ Hm Hcol.
  rewrite <- Hm, <- Hcol. by apply (Hk p s).
Qed.

Lemma returns_add_logic_kinds kind p md col :
  (mode_code md, col) = kind p →
  returns (λ c, wf c ∧ kinds kind c) (add_logic (LogicGate_init p md col))
          (λ _ c, wf c ∧ kinds kind c).
Proof.
  intros Hkind c [Hwf Hk].
  destruct (add_logic_kinds kind p md col c Hwf Hk Hkind) as (c' & ? & ? & ?).
  by exists tt, c'.
Qed.

Lemma returns_wire_gates_kinds kind input_pos output_pos :
  is_Some (wire_pairs input_pos output_pos) →
  returns (λ c, wf c ∧ kinds kind c) (wire_gates input_pos output_pos)
          (λ _ c, wf c ∧ kinds kind c).
Proof.
  intros [ps Hps] c [Hwf Hk]. rewrite wire_gates_run, Hps by apply Hwf.
  eexists tt, _. split; [done|].
  split; [by apply wf_foldl_wire_step|by apply foldl_wire_step_kinds].
Qed.

Lemma create_decoder_body_kinds w :
  2 ≤ w →
  returns (λ c, wf c ∧ kinds decoder_kind c) (create_decoder_body w)
          (λ _ c, wf c ∧ kinds decoder_kind c).
Proof.
  intros Hw. unfold create_decoder_body.
  pose proof (grid_round_bounds w Hw) as Hr.
  pose proof (grid_split_bounds w Hw) as Hs.
  unfold grid_split, grid_round in *.
  eapply returns_bind.
  { apply (returns_for_loop (λ _ _ c, wf c ∧ kinds decoder_kind c)). intros i oy [] _.
    repeat (eapply returns_bind; [by apply returns_add_logic_kinds|intros []]).
    apply returns_wire_gates_kinds, wire_pairs_single_input. }
  intros ?. apply returns_floordiv; [lia|].
  eapply returns_bind;
    [apply (returns_for_loop (λ _ _ c, wf c ∧ kinds decoder_kind c))
    |intros ?; by apply returns_ret].
  intros i ox index Hox. apply py_range_down_lookup in Hox as [-> Hlt].
  apply returns_floordiv; [lia|].
  apply (returns_for_loop (λ _ _ c, wf c ∧ kinds decoder_kind c)). intros j oy idx _.
  eapply returns_bind; [apply returns_add_logic_kinds|intros []].
  { unfold decoder_kind. simpl. by rewrite !bool_decide_eq_false_2 by lia. }
  eapply returns_bind;
    [apply returns_wire_gates_kinds, wire_pairs_single_output
    |intros []; by apply returns_ret].
Qed.

Lemma kinds_init kind : kinds kind Circuit_init.
Proof. intros p s g. by rewrite slot_at_init. Qed.

Lemma create_decoder_kinds w :
  2 ≤ w → ∃ c, create_decoder w = Ok c ∧ wf c ∧ kinds decoder_kind c.
Proof.
  intros Hw. unfold create_decoder, run_builder.
  destruct (Z.ltb_spec w 0) as [|_]; [lia|].
  destruct (create_decoder_body_kinds w Hw Circuit_init (conj wf_init (kinds_init _)))
    as ([] & c & -> & Hc).
  by exists c.
Qed.

(** X13. In the decoder of a width from 2 on, a gate found by [get_block] at
    a coordinate is at that coordinate, and its kind depends on the column:
    x = 0 holds the AND input gates, coloured "eeee22"; x = 2 the NOR gates
    that complement a bit; every other column, x = 1 and the decode columns,
    AND gates; all of these coloured "222222". *)
Theorem create_decoder_gate_kinds (w : Z) :
  2 ≤ w →
  ∃ c, create_decoder w = Ok c ∧
    ∀ x y z s g,
      (get_block (x, y, z) c).1 = Ok (Some s) → logic_gates c !! s = Some g →
      position g = (x, y, z) ∧
      (x = 0 → mode g = 0 ∧ color g = "eeee22"%string) ∧
      (x = 2 → mode g = 4 ∧ color g = "222222"%string) ∧
      (x ≠ 0 → x ≠ 2 → mode g = 0 ∧ color g = "222222"%string).
Proof.
  intros Hw. destruct (create_decoder_kinds w Hw) as (c & Hc & Hwf & Hk).
  exists c. split; [done|]. intros x y z s g. rewrite get_block_run. simpl.
  intros [= Hs] Hg. split.
  - pose proof (wf_indexed c Hwf _ _ Hs) as Hp. rewrite Hg in Hp. by injection Hp.
  - pose proof (Hk _ _ _ Hs Hg) as Hkind. unfold decoder_kind in Hkind. simpl in Hkind.
    repeat case_bool_decide; injection Hkind as -> ->; repeat split; intros; lia || done.
Qed.

Lemma create_decoder_gate_kinds_witness :
  ∃ c, create_decoder 3 = Ok c ∧
    ∀ x y z s g,
      (get_block (x, y, z) c).1 = Ok (Some s) → logic_gates c !! s = Some g →
      position g = (x, y, z) ∧
      (x = 0 → mode g = 0 ∧ color g = "eeee22"%string) ∧
      (x = 2 → mode g = 4 ∧ color g = "222222"%string) ∧
      (x ≠ 0 → x ≠ 2 → mode g = 0 ∧ color g = "222222"%string).
Proof. apply (create_decoder_gate_kinds 3). lia. Defined.

(** ** The layout of the look-up table *)

Lemma lut_slots_inv_start w d :
  slots_inv w (3 * w) (grid_split w) 0 d → lut_slots_inv w 0 d.
Proof.
  intros [Hl _ Hs]. split; [done|].
  intros [[x y] z]. rewrite Hs. unfold lut_slot_spec. simpl.
  by rewrite bool_decide_eq_false_2 by lia.
Qed.

Lemma lut_slots_inv_foldl_wire_step w k ps c :
  lut_slots_inv w k c → lut_slots_inv w k (foldl wire_step c ps).
Proof.
  intros [Hl Hs]. split.
  - by rewrite foldl_wire_step_length.
  - intros p. by rewrite foldl_wire_step_slot_at.
Qed.

Lemma add_or_gate w k md col c :
  2 ≤ w → 0 ≤ k → wf c → lut_slots_inv w k c →
  ∃ c', add_logic (LogicGate_init (0, w + k, 0) md col) c = (Ok tt, c') ∧
        wf c' ∧ lut_slots_inv w (k + 1) c' ∧ (∀ s t, drives c' s t ↔ drives c s t).
Proof.
  intros Hw Hk Hwf [Hl Hs].
  pose proof (grid_split_bounds w Hw). pose proof (grid_rows_bounds w Hw) as [??].
  assert (0 ≤ grid_split w * grid_rows w) by (apply Z.mul_nonneg_nonneg; lia).
  destruct (add_logic_fresh (LogicGate_init (0, w + k, 0) md col) c)
    as (c' & Hrun & Hg & Hcnt & Hslot & Hdr); [apply Hwf| |done|].
  { rewrite Hs. split_lut_cases. }
  exists c'. split; [done|]. split.
  { destruct (wf_add_logic (LogicGate_init (0, w + k, 0) md col) c Hwf)
      as (c'' & Hrun' & Hwf'').
    - simpl. intros t Ht. by apply elem_of_nil in Ht.
    - rewrite Hrun in Hrun'. by injection Hrun' as <-. }
  split; [|done]. split.
  - rewrite Hg, length_app, Hl. simpl. lia.
  - intros [[qx qy] qz]. rewrite Hslot, Hs, Hl. split_lut_cases.
Qed.

Lemma wire_lut w m f k a b c d :
  2 ≤ w → 0 ≤ a < grid_split w → 0 ≤ b < grid_rows w →
  wf c → lut_slots_inv w k c →
  (∀ s t, drives c s t ↔ drives d s t ∨ lut_edges w m f k a b s t) →
  ∃ c', wire_gates [(3 + a, grid_rows w - 1 - b, 0)]
          (lut_outputs w m (reverse (f (a * grid_rows w + b) m))) c = (Ok tt, c') ∧
        wf c' ∧ lut_slots_inv w k c' ∧
        (∀ s t, drives c' s t ↔ drives d s t ∨ lut_edges w m f k a (b + 1) s t).
Proof.
  intros Hw Ha Hb Hwf Hli Hdr.
  rewrite wire_gates_run, wire_pairs_fan_out_eq by apply Hwf.
  eexists. split; [done|]. split; [by apply wf_foldl_wire_step|].
  split; [by apply lut_slots_inv_foldl_wire_step|].
  intros s t. rewrite drives_foldl_wire_step by apply Hwf. rewrite (Hdr s t).
  destruct Hli as [_ Hs]. unfold lut_edges. split.
  - intros [[H|(a' & b' & j & Hpl & Hj & Hss & Hst)]|(p & Hp & Hps & Hpt)].
    + by left.
    + right. exists a', b', j. split; [|done]. unfold placed_decode in *. lia.
    + right. apply list_elem_of_fmap in Hp as (o & -> & Ho). simpl in *.
      apply lut_outputs_elem in Ho as (j & Hj & ->).
      exists a, b, j. rewrite <- !Hs.
      split; [unfold placed_decode; lia|done].
  - intros [H|(a' & b' & j & Hpl & Hj & Hss & Hst)]; [by left; left|].
    destruct (decide (a' = a ∧ b' = b)) as [[-> ->]|Hne].
    + right. exists ((3 + a, grid_rows w - 1 - b, 0), (0, m + Z.of_nat j - w, 0)).
      rewrite !Hs. split; [|done].
      apply list_elem_of_fmap. eexists. split; [done|].
      apply lut_outputs_elem. by exists j.
    + left. right. exists a', b', j. split; [|done]. unfold placed_decode in *. lia.
Qed.

Lemma lut_edges_ext w m f k a b a' b' s t :
  (∀ u y, placed_decode (grid_split w) (grid_rows w) a b u y ↔
          placed_decode (grid_split w) (grid_rows w) a' b' u y) →
  lut_edges w m f k a b s t ↔ lut_edges w m f k a' b' s t.
Proof. intros Hiff. unfold lut_edges. by setoid_rewrite Hiff. Qed.

(** [create_lut_body], started on the decoder [d], returns with the OR gates
    placed after the decoder's gates and the wires of every iteration. *)
Lemma create_lut_body_layout w m f d :
  2 ≤ w → wf d → slots_inv w (3 * w) (grid_split w) 0 d →
  returns (λ c, c = d) (create_lut_body w m f)
    (λ _ c, wf c ∧ lut_slots_inv w (Z.max 0 m) c ∧
            ∀ s t, drives c s t ↔
                   drives d s t ∨ lut_edges w m f (Z.max 0 m) (grid_split w) 0 s t).
Proof.
  intros Hw Hwfd Hsid. unfold create_lut_body.
  pose proof (grid_round_bounds w Hw) as Hr.
  pose proof (grid_split_bounds w Hw) as Hs.
  pose proof (grid_rows_bounds w Hw) as [Hrows Hsr].
  eapply returns_bind.
  { eapply returns_pre; [|apply (returns_for_loop
      (λ i _ c, wf c ∧ lut_slots_inv w (Z.of_nat i) c ∧ ∀ s t, drives c s t ↔ drives d s t))].
    { intros c ->. split; [done|]. split; [by apply lut_slots_inv_start|done]. }
    intros i oy [] Hoy. apply py_range_up_lookup in Hoy as [-> Hlt].
    intros c (Hwf & Hli & Hdr).
    destruct (add_or_gate w (Z.of_nat i) "or" "22ee22" c) as (c' & Hrun & Hwf' & Hli' & Hdr');
      [done|lia|done|done|].
    exists tt, c'. split; [done|]. split; [done|].
    replace (Z.of_nat (S i)) with (Z.of_nat i + 1) by lia.
    split; [done|]. intros s t. by rewrite Hdr'. }
  intros []. rewrite py_range_up_length.
  replace (Z.of_nat (Z.to_nat (w + m - w))) with (Z.max 0 m) by lia.
  set (k := Z.max 0 m).
  fold (grid_round w). apply returns_floordiv; [lia|]. fold (grid_split w).
  eapply returns_bind.
  { eapply returns_pre; [|apply (returns_for_loop
      (λ a index c, index = Z.of_nat a * grid_rows w ∧ wf c ∧ lut_slots_inv w k c ∧
         ∀ s t, drives c s t ↔ drives d s t ∨ lut_edges w m f k (Z.of_nat a) 0 s t))].
    { intros c (Hwf & Hli & Hdr). split; [lia|]. split; [done|]. split; [done|].
      intros s t. rewrite (Hdr s t). split; [by left|].
      intros [H|(a' & b' & j & Hpl & _)]; [done|]. unfold placed_decode in Hpl. lia. }
    intros a ox index Hox. apply py_range_up_lookup in Hox as [-> Hlt].
    apply returns_floordiv; [lia|]. fold (grid_rows w).
    intros c (-> & Hwf & Hli & Hdr).
    destruct (returns_for_loop
      (λ b index c, index = Z.of_nat a * grid_rows w + Z.of_nat b ∧ wf c ∧
         lut_slots_inv w k c ∧
         ∀ s t, drives c s t ↔
                drives d s t ∨ lut_edges w m f k (Z.of_nat a) (Z.of_nat b) s t)
      (py_range (grid_rows w - 1) (-1) (-1))
      (λ oy index,
         wire_gates [(3 + Z.of_nat a, oy, 0)] (lut_outputs w m (reverse (f index m))) ;;;
         ret (index + 1))
      (Z.of_nat a * grid_rows w)) with c
      as (index' & c' & Hrun & -> & Hwf' & Hli' & Hdr').
    - intros b oy index Hoy. apply py_range_down_lookup in Hoy as [-> Hblt].
      intros c0 (-> & Hwf0 & Hli0 & Hdr0). unfold bind.
      destruct (wire_lut w m f k (Z.of_nat a) (Z.of_nat b) c0 d)
        as (c1 & -> & Hwf1 & Hli1 & Hdr1); [done|lia|lia|done|done|done|].
      eexists _, c1. split; [done|].
      replace (Z.of_nat (S b)) with (Z.of_nat b + 1) by lia.
      split; [unfold ret; lia|done].
    - split; [lia|]. exact (conj Hwf (conj Hli Hdr)).
    - eexists _, c'. split; [done|]. rewrite py_range_down_length in *.
      replace (Z.of_nat (Z.to_nat (grid_rows w - 1 - -1))) with (grid_rows w) in * by lia.
      split; [lia|]. split; [done|]. split; [done|].
      intros s t. rewrite (Hdr' s t).
      rewrite (lut_edges_ext w m f k (Z.of_nat a) (grid_rows w) (Z.of_nat (S a)) 0);
        [done|]. intros u y. unfold placed_decode. lia. }
  intros index. apply returns_ret. intros c (_ & Hwf & Hli & Hdr).
  rewrite py_range_up_length in *.
  replace (Z.of_nat (Z.to_nat (grid_split w + 3 - 3))) with (grid_split w) in * by lia.
  done.
Qed.

Lemma create_lut_layout w m f :
  2 ≤ w →
  ∃ d c, create_decoder w = Ok d ∧ create_lut w m f = Ok c ∧
         wf d ∧ slots_inv w (3 * w) (grid_split w) 0 d ∧
         drives_inv w w (grid_split w) 0 d ∧
         wf c ∧ lut_slots_inv w (Z.max 0 m) c ∧
         ∀ s t, drives c s t ↔
                drives d s t ∨ lut_edges w m f (Z.max 0 m) (grid_split w) 0 s t.
Proof.
  intros Hw. destruct (create_decoder_layout w Hw) as (d & Hd & Hsi & Hdi).
  destruct (create_decoder_wf w Hw) as (d' & Hd' & Hwfd).
  rewrite Hd in Hd'. injection Hd' as <-.
  destruct (create_lut_body_layout w m f d Hw Hwfd Hsi d eq_refl)
    as ([] & c & Hrun & Hwf & Hli & Hdr).
  exists d, c. split; [done|]. split.
  - unfold create_lut, run_builder. by rewrite Hd, Hrun.
  - exact (conj Hwfd (conj Hsi (conj Hdi (conj Hwf (conj Hli Hdr))))).
Qed.

(** ** Cells of the grid and addresses *)

Lemma grid_cell_bounds w a b :
  2 ≤ w → 0 ≤ a < grid_split w → 0 ≤ b < grid_rows w →
  0 ≤ a * grid_rows w ∧ 0 ≤ a * grid_rows w + b < grid_split w * grid_rows w.
Proof.
  intros Hw Ha Hb.
  assert (0 ≤ a * grid_rows w) by (apply Z.mul_nonneg_nonneg; lia).
  assert ((a + 1) * grid_rows w ≤ grid_split w * grid_rows w)
    by (apply Z.mul_le_mono_nonneg_r; lia).
  lia.
Qed.

Lemma grid_cell_div_mod w a b :
  0 ≤ b < grid_rows w →
  (a * grid_rows w + b) `div` grid_rows w = a ∧
  (a * grid_rows w + b) `mod` grid_rows w = b.
Proof.
  intros Hb. split.
  - symmetry. apply (Z.div_unique_pos _ _ a b); lia.
  - symmetry. apply (Z.mod_unique_pos _ _ a b); lia.
Qed.

Lemma grid_index_cell w index :
  2 ≤ w → 0 ≤ index < grid_split w * grid_rows w →
  let a := index `div` grid_rows w in
  let b := index `mod` grid_rows w in
  index = a * grid_rows w + b ∧ 0 ≤ a < grid_split w ∧ 0 ≤ b < grid_rows w.
Proof.
  intros Hw Hidx a b. pose proof (grid_rows_bounds w Hw) as [Hrows _].
  split; [unfold a, b; rewrite Z.mul_comm; apply Z.div_mod; lia|].
  split; [|apply Z.mod_pos_bound; lia].
  split; [apply Z.div_pos; lia|]. apply Z.div_lt_upper_bound; lia.
Qed.

Lemma testbit_complement w index k :
  0 ≤ k < w → Z.testbit (2 ^ w - 1 - index) k = negb (Z.testbit index k).
Proof.
  intros Hk. rewrite <- Z.lnot_spec by lia.
  rewrite <- (Z.mod_pow2_bits_low (2 ^ w - 1 - index) w k) by lia.
  rewrite <- (Z.mod_pow2_bits_low (Z.lnot index) w k) by lia.
  f_equal. unfold Z.lnot.
  replace (2 ^ w - 1 - index) with (Z.pred (- index) + 1 * 2 ^ w) by lia.
  apply Z.mod_add. apply Z.pow_nonzero; lia.
Qed.

(** The wires into decode gates of a decoder, by the bits of the address the
    gate was placed for. *)
Lemma decoder_gate_inputs w d index k x :
  2 ≤ w → drives_inv w w (grid_split w) 0 d →
  0 ≤ index < grid_split w * grid_rows w → 0 ≤ k < w → 1 ≤ x ≤ 2 →
  drives d (Z.to_nat (3 * k + x)) (Z.to_nat (3 * w + index)) ↔
  x = if Z.testbit index k then 2 else 1.
Proof.
  intros Hw Hd Hidx Hk Hx. rewrite (Hd _ _). unfold decoder_drives_spec.
  pose proof (grid_rows_bounds w Hw) as [Hrows Hsr].
  destruct (grid_index_cell w index Hw Hidx) as (Hi & Ha & Hb).
  split.
  - intros [(y & Hy & _ & Ht)|(u & y & off & char & Hpl & Hoff & Hs & Ht)]; [lia|].
    unfold placed_decode in Hpl.
    destruct (grid_cell_bounds w u y Hw) as [Hu0 Hu]; [lia..|].
    assert (u * grid_rows w + y = index) as Hcell by lia. rewrite Hcell in Hoff.
    destruct (decoder_number_lookup w index off char) as [Hlt Hbit]; [lia|lia|done|].
    assert (Z.of_nat off = w - 1 - k) as Hoffk by lia.
    rewrite decoder_number_testbit in Hoff by lia.
    replace (w - 1 - Z.of_nat off) with k in Hoff by lia.
    destruct (Z.testbit index k); injection Hoff as <-;
      rewrite ?int_digit_0, ?int_digit_1 in Hs; lia.
  - intros ->. right.
    exists (index `div` grid_rows w), (index `mod` grid_rows w), (Z.to_nat (w - 1 - k)),
           (if Z.testbit index k then "1"%char else "0"%char).
    rewrite <- Hi. split; [unfold placed_decode; lia|]. split.
    + rewrite decoder_number_testbit by lia.
      by replace (w - 1 - Z.of_nat (Z.to_nat (w - 1 - k))) with k by lia.
    + split; [|f_equal; lia]. destruct (Z.testbit index k);
        rewrite ?int_digit_0, ?int_digit_1; lia.
Qed.

(** In a decoder only line gates drive anything. *)
Lemma decoder_sources w d s t :
  2 ≤ w → drives_inv w w (grid_split w) 0 d → drives d s t →
  Z.of_nat s < 3 * w ∧ 3 * w ≤ Z.of_nat t ∨
  Z.of_nat s < 3 * w ∧ Z.of_nat t < 3 * w.
Proof.
  intros Hw Hd Hdr. apply Hd in Hdr.
  destruct Hdr as [(y & Hy & -> & Ht)|(u & y & off & char & Hpl & Hoff & -> & ->)].
  - right. lia.
  - left. unfold placed_decode in Hpl.
    destruct (grid_cell_bounds w u y Hw) as [Hu0 Hu]; [lia..|].
    destruct (decoder_number_lookup w (u * grid_rows w + y) off char) as [Hlt Hbit];
      [lia| |done|lia].
    pose proof (grid_rows_bounds w Hw). lia.
Qed.

Lemma lut_slot_line w k x y :
  0 ≤ x ≤ 2 → 0 ≤ y < w →
  lut_slot_spec w k (x, y, 0) = Some (Z.to_nat (3 * y + x)).
Proof. intros Hx Hy. split_lut_cases. Qed.

Lemma lut_slot_cell w k a b :
  2 ≤ w → 0 ≤ a < grid_split w → 0 ≤ b < grid_rows w →
  lut_slot_spec w k (3 + a, grid_rows w - 1 - b, 0)
  = Some (Z.to_nat (3 * w + (grid_split w * grid_rows w - 1 - (a * grid_rows w + b)))).
Proof. intros Hw Ha Hb. split_lut_cases. Qed.

Lemma lut_slot_or w k j :
  2 ≤ w → 0 ≤ j →
  lut_slot_spec w k (0, w + j, 0)
  = if bool_decide (j < k) then Some (Z.to_nat (3 * w + grid_split w * grid_rows w + j))
    else None.
Proof.
  intros Hw Hj. pose proof (grid_split_bounds w Hw).
  case_bool_decide; split_lut_cases.
Qed.

Lemma lut_pos_cell w a b :
  0 ≤ b < grid_rows w →
  lut_pos w (a * grid_rows w + b) = (3 + a, grid_rows w - 1 - b, 0).
Proof.
  intros Hb. unfold lut_pos. destruct (grid_cell_div_mod w a b Hb) as [-> ->]. done.
Qed.

(** ** The gates and wires of the look-up table *)

Lemma create_lut_body_kinds w m f :
  2 ≤ w →
  returns (λ c, wf c ∧ kinds (lut_kind w) c) (create_lut_body w m f)
          (λ _ c, wf c ∧ kinds (lut_kind w) c).
Proof.
  intros Hw. unfold create_lut_body.
  pose proof (grid_round_bounds w Hw) as Hr.
  pose proof (grid_split_bounds w Hw) as Hs.
  unfold grid_split, grid_round in *.
  eapply returns_bind.
  { apply (returns_for_loop (λ _ _ c, wf c ∧ kinds (lut_kind w) c)). intros i oy [] Hoy.
    apply py_range_up_lookup in Hoy as [-> Hlt].
    apply returns_add_logic_kinds. unfold lut_kind. simpl.
    by rewrite bool_decide_eq_true_2 by lia. }
  intros ?. apply returns_floordiv; [lia|].
  eapply returns_bind;
    [apply (returns_for_loop (λ _ _ c, wf c ∧ kinds (lut_kind w) c))
    |intros ?; by apply returns_ret].
  intros i ox index _. apply returns_floordiv; [lia|].
  apply (returns_for_loop (λ _ _ c, wf c ∧ kinds (lut_kind w) c)). intros j oy idx _.
  eapply returns_bind;
    [apply returns_wire_gates_kinds, wire_pairs_single_input
    |intros []; by apply returns_ret].
Qed.

Lemma create_lut_kinds w m f :
  2 ≤ w → ∃ c, create_lut w m f = Ok c ∧ kinds (lut_kind w) c.
Proof.
  intros Hw. destruct (create_decoder_layout w Hw) as (d & Hd & [_ _ Hs] & _).
  destruct (create_decoder_kinds w Hw) as (d' & Hd' & Hwf & Hk).
  rewrite Hd in Hd'. injection Hd' as <-.
  assert (kinds (lut_kind w) d) as Hk'.
  { intros p s g Hp Hg. rewrite (Hk p s g Hp Hg). unfold lut_kind.
    rewrite bool_decide_eq_false_2; [done|]. intros [Hx Hy].
    rewrite Hs in Hp. destruct p as [[x y] z]. simpl in *. subst x.
    revert Hp. pose proof (grid_split_bounds w Hw). split_slot_cases. }
  destruct (create_lut_body_kinds w m f Hw d (conj Hwf Hk')) as ([] & c & Hrun & _ & Hc).
  exists c. split; [|done]. unfold create_lut, run_builder. by rewrite Hd, Hrun.
Qed.

Lemma lut_edges_source w m f k a b s t :
  2 ≤ w → lut_edges w m f k a b s t →
  3 * w ≤ Z.of_nat s < 3 * w + grid_split w * grid_rows w.
Proof.
  intros Hw (a' & b' & j & Hpl & _ & Hs & _). unfold placed_decode in Hpl.
  rewrite lut_slot_cell in Hs by lia. injection Hs as <-.
  destruct (grid_cell_bounds w a' b' Hw); lia.
Qed.

(** X14. For a width from 2 on, [create_lut] returns the decoder's circuit
    with one more gate per output bit: every coordinate of the decoder keeps
    its slot, and for each output bit [j] the gate at (0, w + j, 0) is the
    gate number (decoder's gates + j), an OR gate coloured "22ee22" that
    drives nothing. *)
Theorem create_lut_or_gates (w m : Z) (f : Z → Z → list ascii) :
  2 ≤ w →
  ∃ d c, create_decoder w = Ok d ∧ create_lut w m f = Ok c ∧
    len (logic_gates c) = len (logic_gates d) + Z.max 0 m ∧
    (∀ p s, (get_block p d).1 = Ok (Some s) → (get_block p c).1 = Ok (Some s)) ∧
    ∀ j, 0 ≤ j < m →
      ∃ g, (get_block (0, w + j, 0) c).1 = Ok (Some (Z.to_nat (len (logic_gates d) + j))) ∧
           logic_gates c !! Z.to_nat (len (logic_gates d) + j) = Some g ∧
           position g = (0, w + j, 0) ∧ mode g = 1 ∧ color g = "22ee22"%string ∧
           connections g = [].
Proof.
  intros Hw.
  destruct (create_lut_layout w m f Hw)
    as (d & c & Hd & Hc & Hwfd & [Hld _ Hsd] & Hdd & Hwf & [Hl Hs] & Hdr).
  destruct (create_lut_kinds w m f Hw) as (c' & Hc' & Hk).
  rewrite Hc in Hc'. injection Hc' as <-.
  pose proof (grid_split_bounds w Hw) as Hsp.
  pose proof (grid_rows_bounds w Hw) as [Hrows Hsr].
  assert (0 ≤ grid_split w * grid_rows w) as Hn by (apply Z.mul_nonneg_nonneg; lia).
  assert (len (logic_gates d) = 3 * w + grid_split w * grid_rows w) as Hlend
    by (unfold len; rewrite Hld; lia).
  exists d, c. split; [done|]. split; [done|]. split; [|split].
  - unfold len. rewrite Hl. lia.
  - intros [[x y] z] s. rewrite !get_block_run, Hs, Hsd. simpl. intros [= Hp].
    f_equal. rewrite <- Hp. unfold lut_slot_spec. simpl.
    rewrite bool_decide_eq_false_2; [done|]. intros (-> & -> & Hy).
    revert Hp. split_slot_cases.
  - intros j Hj.
    assert (slot_at c (0, w + j, 0) = Some (Z.to_nat (len (logic_gates d) + j))) as Hslot.
    { rewrite Hs, lut_slot_or, bool_decide_eq_true_2, Hlend by lia. done. }
    destruct (lookup_lt_is_Some_2 (logic_gates c) _ (wf_slots c Hwf _ _ Hslot)) as [g Hg].
    exists g. split; [by rewrite get_block_run, Hslot|]. split; [done|].
    pose proof (wf_indexed c Hwf _ _ Hslot) as Hpos. rewrite Hg in Hpos.
    injection Hpos as Hpos. split; [done|].
    pose proof (Hk _ _ _ Hslot Hg) as Hkind. unfold lut_kind in Hkind. simpl in Hkind.
    rewrite bool_decide_eq_true_2 in Hkind by lia. injection Hkind as -> ->.
    split; [done|]. split; [done|].
    apply elem_of_nil_inv. intros t Ht.
    assert (drives c (Z.to_nat (len (logic_gates d) + j)) t) as Hdrv by (by exists g).
    apply Hdr in Hdrv as [Hdrv|Hdrv].
    + destruct (decoder_sources w d _ t Hw Hdd Hdrv); lia.
    + apply lut_edges_source in Hdrv; lia.
Qed.

Lemma create_lut_or_gates_witness :
  ∃ d c, create_decoder 8 = Ok d ∧ create_lut 8 16 square_func = Ok c ∧
    len (logic_gates c) = len (logic_gates d) + Z.max 0 16 ∧
    (∀ p s, (get_block p d).1 = Ok (Some s) → (get_block p c).1 = Ok (Some s)) ∧
    ∀ j, 0 ≤ j < 16 →
      ∃ g, (get_block (0, 8 + j, 0) c).1 = Ok (Some (Z.to_nat (len (logic_gates d) + j))) ∧
           logic_gates c !! Z.to_nat (len (logic_gates d) + j) = Some g ∧
           position g = (0, 8 + j, 0) ∧ mode g = 1 ∧ color g = "22ee22"%string ∧
           connections g = [].
Proof. apply (create_lut_or_gates 8 16 square_func). lia. Defined.

(** X15. For a width from 2 on and any output width and bit function, the
    wires of [create_lut]'s circuit are those of the decoder and, for every
    index of the grid and every position [j] at which the reversed string
    [f(index, m)] has a 1, a wire from the gate at [lut_pos w index] to the
    gate at (0, m + j - w, 0), when that coordinate is occupied; there are no
    others. *)
Theorem create_lut_wires (w m : Z) (f : Z → Z → list ascii) :
  2 ≤ w →
  ∃ d c, create_decoder w = Ok d ∧ create_lut w m f = Ok c ∧
    ∀ s t, drives c s t ↔
      drives d s t ∨
      ∃ index (j : nat),
        0 ≤ index < grid_split w * grid_rows w ∧
        reverse (f index m) !! j = Some "1"%char ∧
        (get_block (lut_pos w index) c).1 = Ok (Some s) ∧
        (get_block (0, m + Z.of_nat j - w, 0) c).1 = Ok (Some t).
Proof.
  intros Hw.
  destruct (create_lut_layout w m f Hw)
    as (d & c & Hd & Hc & _ & _ & _ & Hwf & [_ Hs] & Hdr).
  exists d, c. split; [done|]. split; [done|].
  intros s t. rewrite (Hdr s t). setoid_rewrite get_block_run. simpl.
  setoid_rewrite Hs. unfold lut_edges. split.
  - intros [H|(a & b & j & Hpl & Hj & Hss & Hst)]; [by left|]. right.
    unfold placed_decode in Hpl.
    exists (a * grid_rows w + b), j. rewrite lut_pos_cell by lia.
    destruct (grid_cell_bounds w a b Hw) as [_ ?]; [lia..|].
    split; [done|]. split; [done|]. by rewrite Hss, Hst.
  - intros [H|(index & j & Hidx & Hj & [= Hss] & [= Hst])]; [by left|]. right.
    destruct (grid_index_cell w index Hw Hidx) as (Hi & Ha & Hb).
    exists (index `div` grid_rows w), (index `mod` grid_rows w), j.
    rewrite <- Hi. split; [unfold placed_decode; lia|]. split; [done|]. done.
Qed.

Lemma create_lut_wires_witness :
  ∃ d c, create_decoder 2 = Ok d ∧ create_lut 2 3 square_func = Ok c ∧
    ∀ s t, drives c s t ↔
      drives d s t ∨
      ∃ index (j : nat),
        0 ≤ index < grid_split 2 * grid_rows 2 ∧
        reverse (square_func index 3) !! j = Some "1"%char ∧
        (get_block (lut_pos 2 index) c).1 = Ok (Some s) ∧
        (get_block (0, 3 + Z.of_nat j - 2, 0) c).1 = Ok (Some t).
Proof. apply (create_lut_wires 2 3 square_func). lia. Defined.

(** X16. With an output width of twice the address width (the call of
    [main]) the offsets of [create_lut] agree: for every index of the grid
    and every output bit [j] below [2w], the gate at [lut_pos w index] is
    wired to the OR gate of bit [j], at (0, w + j, 0), exactly when the
    reversed string [f(index, 2w)] has a 1 at position [j]. *)
Theorem create_lut_double_width (w : Z) (f : Z → Z → list ascii) :
  2 ≤ w →
  ∃ c, create_lut w (2 * w) f = Ok c ∧
    ∀ index (j : nat),
      0 ≤ index < grid_split w * grid_rows w → Z.of_nat j < 2 * w →
      wired c (lut_pos w index) (0, w + Z.of_nat j, 0) ↔
      reverse (f index (2 * w)) !! j = Some "1"%char.
Proof.
  intros Hw.
  destruct (create_lut_layout w (2 * w) f Hw)
    as (d & c & Hd & Hc & _ & _ & Hdd & Hwf & [_ Hs] & Hdr).
  exists c. split; [done|]. intros index j Hidx Hj.
  destruct (grid_index_cell w index Hw Hidx) as (Hi & Ha & Hb).
  set (a := index `div` grid_rows w) in *. set (b := index `mod` grid_rows w) in *.
  pose proof (grid_cell_bounds w a b Hw Ha Hb) as [Hab0 Hab].
  assert (slot_at c (lut_pos w index)
          = Some (Z.to_nat (3 * w + (grid_split w * grid_rows w - 1 - index)))) as Hsrc.
  { rewrite Hs, Hi at 1. rewrite lut_pos_cell, lut_slot_cell by lia. by rewrite <- Hi. }
  assert (slot_at c (0, w + Z.of_nat j, 0)
          = Some (Z.to_nat (3 * w + grid_split w * grid_rows w + Z.of_nat j))) as Htgt.
  { rewrite Hs, lut_slot_or, bool_decide_eq_true_2 by lia. done. }
  unfold wired. rewrite !get_block_run, Hsrc, Htgt. split.
  - intros (s & t & [= <-] & [= <-] & Hdrv). apply Hdr in Hdrv as [Hdrv|Hdrv].
    + destruct (decoder_sources w d _ _ Hw Hdd Hdrv); lia.
    + destruct Hdrv as (a' & b' & j' & Hpl & Hj' & Hss & Hst).
      unfold placed_decode in Hpl.
      pose proof (grid_cell_bounds w a' b' Hw) as [Hab0' Hab']; [lia..|].
      rewrite lut_slot_cell in Hss by lia. injection Hss as Hss.
      assert (a' * grid_rows w + b' = index) as Hcell by lia.
      replace (2 * w + Z.of_nat j' - w) with (w + Z.of_nat j') in Hst by lia.
      rewrite lut_slot_or in Hst by lia. case_bool_decide; [|done].
      injection Hst as Hst. assert (j' = j) as -> by lia.
      by rewrite Hcell in Hj'.
  - intros Hbit. eexists _, _. split; [done|]. split; [done|].
    apply Hdr. right. exists a, b, j. split; [unfold placed_decode; lia|].
    rewrite <- Hi. split; [done|].
    rewrite lut_slot_cell by lia. split; [by rewrite <- Hi|].
    replace (2 * w + Z.of_nat j - w) with (w + Z.of_nat j) by lia.
    by rewrite lut_slot_or, bool_decide_eq_true_2 by lia.
Qed.

Lemma create_lut_double_width_witness :
  ∃ c, create_lut 8 (2 * 8) square_func = Ok c ∧
    ∀ index (j : nat),
      0 ≤ index < grid_split 8 * grid_rows 8 → Z.of_nat j < 2 * 8 →
      wired c (lut_pos 8 index) (0, 8 + Z.of_nat j, 0) ↔
      reverse (square_func index (2 * 8)) !! j = Some "1"%char.
Proof. apply (create_lut_double_width 8 square_func). lia. Defined.

(** The wires from the lines of address bit [k] into the gate that
    [create_lut] uses for [index], when the grid holds all [2 ^ w]
    addresses. *)
Lemma create_lut_line_wire w m f d c index k x :
  2 ≤ w → grid_split w * grid_rows w = 2 ^ w →
  drives_inv w w (grid_split w) 0 d → lut_slots_inv w (Z.max 0 m) c →
  (∀ s t, drives c s t ↔
          drives d s t ∨ lut_edges w m f (Z.max 0 m) (grid_split w) 0 s t) →
  0 ≤ index < 2 ^ w → 0 ≤ k < w → 1 ≤ x ≤ 2 →
  wired c (x, k, 0) (lut_pos w index) ↔ x = if Z.testbit index k then 1 else 2.
Proof.
  intros Hw Hfull Hdd [_ Hs] Hdr Hidx Hk Hx. rewrite <- Hfull in Hidx.
  destruct (grid_index_cell w index Hw Hidx) as (Hi & Ha & Hb).
  set (a := index `div` grid_rows w) in *. set (b := index `mod` grid_rows w) in *.
  assert (slot_at c (lut_pos w index)
          = Some (Z.to_nat (3 * w + (2 ^ w - 1 - index)))) as Htgt.
  { rewrite Hs, Hi at 1. rewrite lut_pos_cell, lut_slot_cell by lia.
    by rewrite <- Hi, Hfull. }
  assert (slot_at c (x, k, 0) = Some (Z.to_nat (3 * k + x))) as Hsrc
    by (rewrite Hs; apply lut_slot_line; lia).
  assert (drives c (Z.to_nat (3 * k + x)) (Z.to_nat (3 * w + (2 ^ w - 1 - index)))
          ↔ x = if Z.testbit index k then 1 else 2) as Hiff.
  { rewrite (Hdr _ _), (decoder_gate_inputs w d (2 ^ w - 1 - index) k x)
      by (done || lia).
    rewrite testbit_complement by lia. split.
    - intros [Hx'|Hedge].
      + destruct (Z.testbit index k); simpl in Hx'; lia.
      + apply lut_edges_source in Hedge; lia.
    - intros Hx'. left. destruct (Z.testbit index k); simpl; lia. }
  unfold wired. rewrite !get_block_run, Hsrc, Htgt. split.
  - intros (s & t & [= <-] & [= <-] & Hdrv). by apply Hiff.
  - intros Hx'. eexists _, _. split; [done|]. split; [done|]. by apply Hiff.
Qed.

(** X17. When the grid of the decoder holds all [2 ^ w] addresses, the gate
    that [create_lut] wires for [index] decodes exactly that address: for
    every address bit [k] it receives the true line (1, k, 0) when bit [k] of
    [index] is 1 and the complement line (2, k, 0) when it is 0, and never
    the other line of that bit. *)
Theorem create_lut_gate_decodes_index (w m : Z) (f : Z → Z → list ascii) :
  2 ≤ w → grid_split w * grid_rows w = 2 ^ w →
  ∃ c, create_lut w m f = Ok c ∧
    ∀ index k, 0 ≤ index < 2 ^ w → 0 ≤ k < w →
      (wired c (1, k, 0) (lut_pos w index) ↔ Z.testbit index k = true) ∧
      (wired c (2, k, 0) (lut_pos w index) ↔ Z.testbit index k = false).
Proof.
  intros Hw Hfull.
  destruct (create_lut_layout w m f Hw)
    as (d & c & Hd & Hc & _ & _ & Hdd & Hwf & Hsl & Hdr).
  exists c. split; [done|]. intros index k Hidx Hk. split.
  - rewrite (create_lut_line_wire w m f d c index k 1) by (done || lia).
    destruct (Z.testbit index k); split; (done || lia).
  - rewrite (create_lut_line_wire w m f d c index k 2) by (done || lia).
    destruct (Z.testbit index k); split; (done || lia).
Qed.

Lemma create_lut_gate_decodes_index_witness :
  grid_split 8 * grid_rows 8 = 2 ^ 8 ∧
  ∃ c, create_lut 8 16 square_func = Ok c ∧
    ∀ index k, 0 ≤ index < 2 ^ 8 → 0 ≤ k < 8 →
      (wired c (1, k, 0) (lut_pos 8 index) ↔ Z.testbit index k = true) ∧
      (wired c (2, k, 0) (lut_pos 8 index) ↔ Z.testbit index k = false).
Proof.
  assert (grid_split 8 * grid_rows 8 = 2 ^ 8) as H by (vm_compute; reflexivity).
  split; [exact H|]. apply (create_lut_gate_decodes_index 8 16 square_func); [lia|exact H].
Defined.
